(** * rqlite: command history (cmd/rqlite/history) and the batching queue (queue)

    A shallow embedding of [cmd/rqlite/history/history.go] and of the
    batching queue exercised by [queue/queue_test.go], with the properties
    stated about them.

    Go values are embedded as follows.
    - [int] is a 64-bit two's-complement integer: a [Z] with the wrap-around
      of the arithmetic written out ([wrap]).
    - [string] is a byte string: [String.string], one [ascii] per byte.
    - [[]string] is [slice]: [None] is the nil slice, [Some l] a non-nil
      slice with elements [l].
    - indexing and slicing out of range panic: functions that index return
      an [outcome], either [Ret v] or [Panic p].
    - [error] values are their messages; a nil error is [None]. *)

From Stdlib Require Import ZArith List String Ascii Bool Lia.
Import ListNotations.

Local Open Scope Z_scope.
Local Open Scope list_scope.

(** ** Go runtime: integers, panics, slices *)

Module Go.

Definition minInt : Z := - 2 ^ 63.
Definition maxInt : Z := 2 ^ 63 - 1.

(** The value an [int] operation leaves after overflow. *)
Definition wrap (z : Z) : Z := (z + 2 ^ 63) mod 2 ^ 64 - 2 ^ 63.

Definition isInt (z : Z) : Prop := minInt <= z <= maxInt.

Inductive panic : Type :=
| IndexOutOfRange (i n : Z)
| SliceBoundsOutOfRange (lo hi : Z).

Inductive outcome (A : Type) : Type :=
| Ret (a : A)
| Panic (p : panic).

Arguments Ret {A} a.
Arguments Panic {A} p.

Definition bind {A B : Type} (m : outcome A) (f : A -> outcome B) : outcome B :=
  match m with
  | Ret a => f a
  | Panic p => Panic p
  end.

Definition error : Type := string.

Definition slice : Type := option (list string).

Definition elems (s : slice) : list string :=
  match s with
  | None => []
  | Some l => l
  end.

Definition len (s : slice) : Z := Z.of_nat (List.length (elems s)).

(** [s[i]] *)
Definition index (s : slice) (i : Z) : outcome string :=
  if (0 <=? i) && (i <? len s)
  then Ret (nth (Z.to_nat i) (elems s) EmptyString)
  else Panic (IndexOutOfRange i (len s)).

(** [s[lo:]] *)
Definition sliceFrom (s : slice) (lo : Z) : outcome slice :=
  if (0 <=? lo) && (lo <=? len s)
  then Ret (match s with
            | None => None
            | Some l => Some (skipn (Z.to_nat lo) l)
            end)
  else Panic (SliceBoundsOutOfRange lo (len s)).

(** [append(s, x)] *)
Definition append (s : slice) (x : string) : slice := Some (elems s ++ [x]).

(** [len(s)] of a string, in bytes. *)
Definition strlen (s : string) : Z := Z.of_nat (String.length s).

Definition byte (c : ascii) : Z := Z.of_N (N_of_ascii c).

End Go.

Import Go.

Notation "x <- m ;; k" := (bind m (fun x => k))
  (at level 61, m at next level, right associativity).

(** ** unicode/utf8 and strings.Fields *)

Module utf8.

Definition RuneError : Z := 65533.

Definition between (lo hi b : Z) : bool := (lo <=? b) && (b <=? hi).

(** Lowest and highest second byte accepted after the first byte [b0] of a
    multi-byte sequence. *)
Definition acceptLo (b0 : Z) : Z :=
  if b0 =? 224 then 160 else if b0 =? 240 then 144 else 128.

Definition acceptHi (b0 : Z) : Z :=
  if b0 =? 237 then 159 else if b0 =? 244 then 143 else 191.

(** [utf8.DecodeRuneInString]: the first rune of [s] and its width in bytes;
    an invalid or truncated encoding is [RuneError] of width 1. *)
Definition DecodeRuneInString (s : string) : Z * nat :=
  match s with
  | EmptyString => (RuneError, 0%nat)
  | String c0 s1 =>
      let b0 := byte c0 in
      if b0 <? 128 then (b0, 1%nat)
      else if between 194 223 b0 then
        match s1 with
        | String c1 _ =>
            let b1 := byte c1 in
            if between 128 191 b1
            then (Z.lor (Z.shiftl (Z.land b0 31) 6) (Z.land b1 63), 2%nat)
            else (RuneError, 1%nat)
        | _ => (RuneError, 1%nat)
        end
      else if between 224 239 b0 then
        match s1 with
        | String c1 (String c2 _) =>
            let b1 := byte c1 in
            let b2 := byte c2 in
            if between (acceptLo b0) (acceptHi b0) b1 && between 128 191 b2
            then (Z.lor (Z.shiftl (Z.land b0 15) 12)
                    (Z.lor (Z.shiftl (Z.land b1 63) 6) (Z.land b2 63)), 3%nat)
            else (RuneError, 1%nat)
        | _ => (RuneError, 1%nat)
        end
      else if between 240 244 b0 then
        match s1 with
        | String c1 (String c2 (String c3 _)) =>
            let b1 := byte c1 in
            let b2 := byte c2 in
            let b3 := byte c3 in
            if between (acceptLo b0) (acceptHi b0) b1
               && between 128 191 b2 && between 128 191 b3
            then (Z.lor (Z.shiftl (Z.land b0 7) 18)
                    (Z.lor (Z.shiftl (Z.land b1 63) 12)
                       (Z.lor (Z.shiftl (Z.land b2 63) 6) (Z.land b3 63))),
                  4%nat)
            else (RuneError, 1%nat)
        | _ => (RuneError, 1%nat)
        end
      else (RuneError, 1%nat)
  end.

Fixpoint takeBytes (n : nat) (s : string) : string :=
  match n, s with
  | S n', String c s' => String c (takeBytes n' s')
  | _, _ => EmptyString
  end.

Fixpoint dropBytes (n : nat) (s : string) : string :=
  match n, s with
  | S n', String _ s' => dropBytes n' s'
  | _, _ => s
  end.

(** What [for _, r := range s] visits: each rune with the bytes that encode
    it.  [fuel] bounds the number of runes; [String.length s] is enough. *)
Fixpoint rangeRunes (fuel : nat) (s : string) : list (Z * string) :=
  match fuel with
  | O => []
  | S fuel' =>
      match s with
      | EmptyString => []
      | _ =>
          let (r, w) := DecodeRuneInString s in
          (r, takeBytes w s) :: rangeRunes fuel' (dropBytes w s)
      end
  end.

Definition runes (s : string) : list (Z * string) :=
  rangeRunes (String.length s) s.

End utf8.

Module unicode.

(** [unicode.IsSpace]: the Latin-1 spaces, then the White_Space property. *)
Definition IsSpace (r : Z) : bool :=
  if r <=? 255 then
    (r =? 9) || (r =? 10) || (r =? 11) || (r =? 12) || (r =? 13)
    || (r =? 32) || (r =? 133) || (r =? 160)
  else
    (r =? 5760) || utf8.between 8192 8202 r || (r =? 8232) || (r =? 8233)
    || (r =? 8239) || (r =? 8287) || (r =? 12288).

End unicode.

Module strings.

(** [strings.FieldsFunc] over the decoded runes: [cur] is the field being
    read, if any. *)
Fixpoint fieldsOf (f : Z -> bool) (rs : list (Z * string)) (cur : option string)
  : list string :=
  match rs with
  | [] =>
      match cur with
      | Some w => [w]
      | None => []
      end
  | (r, bs) :: rs' =>
      if f r then
        match cur with
        | Some w => w :: fieldsOf f rs' None
        | None => fieldsOf f rs' None
        end
      else
        fieldsOf f rs' (Some (match cur with
                              | Some w => (w ++ bs)%string
                              | None => bs
                              end))
  end.

(** [strings.Fields]: the maximal runs of non-space runes of [s]. *)
Definition Fields (s : string) : slice :=
  Some (fieldsOf unicode.IsSpace (utf8.runes s) None).

End strings.

(** ** strconv.Atoi and os.Getenv *)

Module strconv.

Fixpoint digits (s : string) (acc : Z) : option Z :=
  match s with
  | EmptyString => Some acc
  | String c s' =>
      let d := byte c - 48 in
      if (0 <=? d) && (d <=? 9) then digits s' (acc * 10 + d) else None
  end.

(** [strconv.Atoi]: an optional sign and one or more decimal digits, whose
    value fits an [int]; [None] when Atoi returns a non-nil error (syntax or
    range).  The integer Atoi returns beside an error is not modelled: its
    one caller here reads it only when the error is nil. *)
Definition Atoi (s : string) : option Z :=
  match s with
  | EmptyString => None
  | String c rest =>
      let neg := (byte c =? 45) in
      let body := if neg || (byte c =? 43) then rest else s in
      match body with
      | EmptyString => None
      | _ =>
          match digits body 0 with
          | None => None
          | Some n =>
              let v := if neg then - n else n in
              if (minInt <=? v) && (v <=? maxInt) then Some v else None
          end
      end
  end.

End strconv.

Module os.

(** The process environment: the value of each variable that is set. *)
Definition Env : Type := string -> option string.

(** [os.Getenv]: the value, or the empty string when the variable is unset. *)
Definition Getenv (env : Env) (key : string) : string :=
  match env key with
  | Some v => v
  | None => EmptyString
  end.

End os.

(** ** io.Writer, io.Reader and bufio.Scanner *)

Module io.

(** [io.Writer]: [Write w p] is the writer after the call [w.Write(p)] and
    the error the call returns. *)
Class Writer (W : Type) : Type :=
  Write : W -> string -> W * option error.

(** [io.Reader], read to its end: the bytes the reader delivers, and the
    error that ends the stream ([None] for [io.EOF]). *)
Class Reader (R : Type) : Type :=
  ReadAll : R -> string * option error.

(** The calls [w.Write(c)] for each [c] of [cs] in turn, up to and including
    the first that returns an error. *)
Fixpoint writeEach {W : Type} `{Writer W} (w : W) (cs : list string)
  : W * option error :=
  match cs with
  | [] => (w, None)
  | c :: cs' =>
      let (w', err) := Write w c in
      match err with
      | Some e => (w', Some e)
      | None => writeEach w' cs'
      end
  end.

(** [bytes.Buffer]: every write appends and succeeds. *)
Record Buffer : Type := { contents : string }.

#[global] Instance Buffer_Writer : Writer Buffer :=
  fun b p => ({| contents := (contents b ++ p)%string |}, None).

(** [strings.Reader]: delivers its string, then [io.EOF]. *)
#[global] Instance string_Reader : Reader string :=
  fun s => (s, None).

(** A writer that can take [room] more bytes, as a file on a full device: a
    write that does not fit writes nothing and fails. *)
Record LimitedWriter : Type := { written : string; room : Z }.

Definition ErrShortWrite : error := "short write"%string.

#[global] Instance LimitedWriter_Writer : Writer LimitedWriter :=
  fun w p =>
    if strlen p <=? room w
    then ({| written := (written w ++ p)%string; room := room w - strlen p |},
          None)
    else (w, Some ErrShortWrite).

End io.

Module bufio.

Definition MaxScanTokenSize : Z := 64 * 1024.

Definition ErrTooLong : error := "bufio.Scanner: token too long"%string.

(** A [bufio.Scanner] with the default split function [ScanLines], over a
    reader that delivers [data] and then ends with [rdErr]: [tok] is what
    [Text()] returns, [err] what [Err()] returns. *)
Record Scanner : Type := {
  data : string;
  rdErr : option error;
  tok : string;
  err : option error;
  stopped : bool
}.

Definition NewScanner {R : Type} `{io.Reader R} (r : R) : Scanner :=
  let (d, e) := io.ReadAll r in
  {| data := d; rdErr := e; tok := EmptyString; err := None; stopped := false |}.

(** The bytes of [s] before its first newline, and what follows that newline
    if there is one. *)
Fixpoint cutLine (s : string) : string * option string :=
  match s with
  | EmptyString => (EmptyString, None)
  | String c s' =>
      if (byte c =? 10) then (EmptyString, Some s')
      else let (l, rest) := cutLine s' in (String c l, rest)
  end.

(** [dropCR]: a line without its one trailing carriage return. *)
Fixpoint dropCR (s : string) : string :=
  match s with
  | EmptyString => EmptyString
  | String c EmptyString => if byte c =? 13 then EmptyString else s
  | String c s' => String c (dropCR s')
  end.

Definition stop (s : Scanner) (e : option error) : Scanner :=
  {| data := data s; rdErr := rdErr s; tok := EmptyString; err := e;
     stopped := true |}.

(** [Scan()]: the next line becomes the token; a line that does not fit the
    buffer of [MaxScanTokenSize] bytes stops the scan with [ErrTooLong]; at
    the end of the data the scan stops with the reader's error. *)
Definition Scan (s : Scanner) : bool * Scanner :=
  if stopped s then (false, s)
  else
    match data s with
    | EmptyString => (false, stop s (rdErr s))
    | _ =>
        let (line, rest) := cutLine (data s) in
        if MaxScanTokenSize <=? strlen line then (false, stop s (Some ErrTooLong))
        else
          (true, {| data := match rest with
                            | Some d => d
                            | None => EmptyString
                            end;
                    rdErr := rdErr s; tok := dropCR line; err := None;
                    stopped := false |})
    end.

Definition Text (s : Scanner) : string := tok s.

Definition Err (s : Scanner) : option error := err s.

End bufio.

(** ** package history *)

Module history.

Definition MaxHistSize : Z := 100.

Definition Size (env : os.Env) : Z :=
  let maxSize := MaxHistSize in
  let maxSizeStr := os.Getenv env "RQLITE_HISTFILESIZE" in
  if negb (maxSizeStr =? "")%string then
    match strconv.Atoi maxSizeStr with
    | Some sz => if 0 <? maxSize then sz else maxSize
    | None => maxSize
    end
  else maxSize.

(** The loop of [Dedupe]: [n] iterations are left, [si] is the index and [o]
    the output so far. *)
Fixpoint DedupeLoop (s : slice) (n : nat) (si : Z) (o : slice) : outcome slice :=
  match n with
  | O => Ret o
  | S n' =>
      x <- index s si ;;
      if si =? 0 then DedupeLoop s n' (si + 1) (append o x)
      else
        y <- index o (len o - 1) ;;
        if negb (x =? y)%string then DedupeLoop s n' (si + 1) (append o x)
        else DedupeLoop s n' (si + 1) o
  end.

Definition Dedupe (s : slice) : outcome slice :=
  match s with
  | None => Ret None
  | Some _ => DedupeLoop s (Z.to_nat (len s)) 0 (Some [])
  end.

Fixpoint FilterLoop (s : slice) (n : nat) (si : Z) (o : slice) : outcome slice :=
  match n with
  | O => Ret o
  | S n' =>
      x <- index s si ;;
      if (x =? "")%string || (len (strings.Fields x) =? 0)
      then FilterLoop s n' (si + 1) o
      else FilterLoop s n' (si + 1) (append o x)
  end.

Definition Filter (s : slice) : outcome slice :=
  match s with
  | None => Ret None
  | Some _ => FilterLoop s (Z.to_nat (len s)) 0 (Some [])
  end.

(** The loop of [Read]: [for scanner.Scan() { cmds = append(cmds, scanner.Text()) }].
    Each successful [Scan] consumes at least one byte, so
    [S (String.length data)] iterations are enough. *)
Fixpoint ReadLoop (fuel : nat) (sc : bufio.Scanner) (cmds : slice)
  : bufio.Scanner * slice :=
  match fuel with
  | O => (sc, cmds)
  | S fuel' =>
      let (more, sc') := bufio.Scan sc in
      if more then ReadLoop fuel' sc' (append cmds (bufio.Text sc'))
      else (sc', cmds)
  end.

Definition Read {R : Type} `{io.Reader R} (r : option R)
  : outcome (slice * option error) :=
  match r with
  | None => Ret (None, None)
  | Some r0 =>
      let scanner := bufio.NewScanner r0 in
      let (scanner', cmds) :=
        ReadLoop (S (String.length (bufio.data scanner))) scanner (Some []) in
      k <- Filter cmds ;;
      Ret (k, bufio.Err scanner')
  end.

(** The loop of [Write]: the result is the writer and the error of the write
    that failed, if one did (the function then returns that error). *)
Fixpoint WriteLoop {W : Type} `{io.Writer W} (k : slice) (n : nat) (i : Z) (w : W)
  : outcome (W * option error) :=
  match n with
  | O => Ret (w, None)
  | S n' =>
      x <- index k i ;;
      let (w', err) := io.Write w (x ++ String "010" EmptyString)%string in
      match err with
      | Some e => Ret (w', Some e)
      | None => WriteLoop k n' (i + 1) w'
      end
  end.

(** [Write(j, maxSz, w)]: the writer after the call and the error returned. *)
Definition Write {W : Type} `{io.Writer W} (j : slice) (maxSz : Z) (w : option W)
  : outcome (option W * option error) :=
  if len j =? 0 then Ret (w, None)
  else
    match w with
    | None => Ret (None, None)
    | Some w0 =>
        d <- Dedupe j ;;
        k <- Filter d ;;
        if len k =? 0 then Ret (Some w0, None)
        else
          k <- (if len k >? maxSz then sliceFrom k (wrap (len k - maxSz))
                else Ret k) ;;
          r <- WriteLoop k (Z.to_nat (len k - 1)) 0 w0 ;;
          match r with
          | (w1, Some e) => Ret (Some w1, Some e)
          | (w1, None) =>
              x <- index k (len k - 1) ;;
              let (w2, err) := io.Write w1 x in
              Ret (Some w2, err)
          end
    end.

End history.

(** ** Vocabulary of the properties of package history *)

Module lists.

(** [Subseq o s]: [o] is [s] with some elements left out, order kept. *)
Inductive Subseq {A : Type} : list A -> list A -> Prop :=
| Subseq_nil : Subseq [] []
| Subseq_keep (x : A) (o s : list A) : Subseq o s -> Subseq (x :: o) (x :: s)
| Subseq_drop (x : A) (o s : list A) : Subseq o s -> Subseq o (x :: s).

(** No element of [l] equals its successor. *)
Fixpoint AdjacentDistinct (l : list string) : Prop :=
  match l with
  | x :: (y :: _) as t => x <> y /\ AdjacentDistinct t
  | _ => True
  end.

(** [squeeze prev l]: [l] without the elements that repeat the element
    before them, [prev] standing before the first. *)
Fixpoint squeeze (prev : string) (l : list string) : list string :=
  match l with
  | [] => []
  | x :: t => if (x =? prev)%string then squeeze prev t else x :: squeeze x t
  end.

Definition squeezed (l : list string) : list string :=
  match l with
  | [] => []
  | x :: t => x :: squeeze x t
  end.

(** The last [n] elements of [l] (all of [l] when it has fewer). *)
Definition lastN {A : Type} (n : nat) (l : list A) : list A :=
  skipn (List.length l - n) l.

Definition newline : string := String "010" EmptyString.

(** The byte strings that put the entries [es] on lines of their own: a
    newline after each entry but the last. *)
Fixpoint chunks (es : list string) : list string :=
  match es with
  | [] => []
  | [x] => [x]
  | x :: t => (x ++ newline)%string :: chunks t
  end.

(** The entries [es] separated by newlines, none after the last. *)
Definition joinLines (es : list string) : string :=
  String.concat newline es.

(** A blank line: every rune of it is white space (the empty string is one). *)
Definition Blank (s : string) : Prop :=
  Forall (fun rb => unicode.IsSpace (fst rb) = true) (utf8.runes s).

(** The test [Filter] makes of a line it keeps. *)
Definition kept (x : string) : bool :=
  negb ((x =? "")%string || (len (strings.Fields x) =? 0)).

End lists.

(** ** package queue

    [queue/queue.go] is not part of the sources at hand; only its test file
    is.  The definitions of this module follow the specification of the
    queue, whose words they quote, and the calls and fields that
    [queue_test.go] uses ([New], [Write], [Close], [numTimeouts], the batches
    received from [C]). *)

Module queue.

(** [command.Statement], of which the tests use the field [Sql]. *)
Record Statement : Type := { Sql : string }.

(** Modelled from the spec: the Item that [Write] takes, a
    [*command.Statement] in the tests; [None] is the nil/absent item. *)
Definition Item : Type := option Statement.

(** Modelled from the spec: why a batch was sealed.  "Size-triggered
    emission: a batch sealed because it reached batchSize";
    "timeout-triggered emission: a batch sealed because batchTimeout elapsed
    while non-empty"; and the batch that [Close] seals ("any batch open at
    the moment of Close is sealed and emitted"). *)
Inductive Trigger : Type :=
| SizeTriggered
| TimeoutTriggered
| CloseTriggered.

(** Modelled from the spec: a sealed Batch, "ordered sequence of Items",
    with the trigger that sealed it. *)
Record Emission : Type := { items : list Item; trigger : Trigger }.

(** Modelled from the spec: the Queue, "the public handle bundling
    configuration, Input Buffer, Dispatcher lifecycle, and Output Stream,
    plus a diagnostic counter of timeout-triggered emissions".
    - [capacity], [batchSize], [batchTimeout]: the configuration, the
      timeout counted in ticks of the clock;
    - [inputBuffer]: the "bounded FIFO holding items awaiting batching",
      oldest first;
    - [batch]: the one open batch of the Dispatcher;
    - [timer]: [None] when disarmed, [Some r] when armed and due to fire at
      the [r]-th tick from now;
    - [numTimeouts]: the counter;
    - [output]: the batches delivered to the Output Stream, in the order
      they were sealed (the consumer is taken to accept each delivery);
    - [closed]: whether [Close] has been called. *)
Record Queue : Type := {
  capacity : Z;
  batchSize : Z;
  batchTimeout : Z;
  inputBuffer : list Item;
  batch : list Item;
  timer : option Z;
  numTimeouts : Z;
  output : list Emission;
  closed : bool
}.

(** Modelled from the spec: the result of construction,
    "Construct(capacity, batchSize, batchTimeout) -> Queue | InvalidConfig". *)
Inductive Constructed : Type :=
| InvalidConfig
| Live (q : Queue).

(** Modelled from the spec: the result of a write, "Write(item) -> ok |
    Closed"; [Blocked] is the call that has not returned because the Input
    Buffer is full ("blocks the caller until the item is accepted into the
    Input Buffer"). *)
Inductive Written : Type :=
| Ok
| Closed
| Blocked.

(** Modelled from the spec: construction ([New] in the tests).  "All three
    parameters must be positive; otherwise fails immediately with no
    resources allocated.  On success, starts the Dispatcher and returns a
    live handle."  The Dispatcher starts Idle with its timer disarmed. *)
Definition New (capacity batchSize batchTimeout : Z) : Constructed :=
  if (0 <? capacity) && (0 <? batchSize) && (0 <? batchTimeout)
  then Live {| capacity := capacity; batchSize := batchSize;
               batchTimeout := batchTimeout; inputBuffer := [];
               batch := []; timer := None; numTimeouts := 0; output := [];
               closed := false |}
  else InvalidConfig.

(** Modelled from the spec: [Write].  "If item is nil/absent, returns
    success immediately without touching the Input Buffer (explicit no-op).
    Otherwise blocks the caller until the item is accepted into the Input
    Buffer (i.e., exerts backpressure when the buffer is full) or the queue
    has been closed, in which case it fails with Closed." *)
Definition Write (item : Item) (q : Queue) : Written * Queue :=
  match item with
  | None => (Ok, q)
  | Some _ =>
      if closed q then (Closed, q)
      else if Z.of_nat (List.length (inputBuffer q)) <? capacity q
      then (Ok, {| capacity := capacity q; batchSize := batchSize q;
                   batchTimeout := batchTimeout q;
                   inputBuffer := inputBuffer q ++ [item];
                   batch := batch q; timer := timer q;
                   numTimeouts := numTimeouts q; output := output q;
                   closed := closed q |})
      else (Blocked, q)
  end.

(** Modelled from the spec: the Dispatcher when an item arrives.  "Idle,
    item arrives: append item to a fresh batch -> Accumulating; arm timer
    for batchTimeout."  "Accumulating, item arrives: append to current
    batch.  If resulting length == batchSize: seal and deliver the batch to
    the Output Stream (size-triggered emission, no counter change), clear
    the batch, disarm timer -> Idle.  Else remain Accumulating (timer not
    reset by individual arrivals)."  The length is compared after every
    append, the first included: an open batch has "length < batchSize", and
    [Test_NewQueueWriteBatchSizeSingle] (batchSize 1, timeout 60s) receives
    its batch of one item at once. *)
Definition arrive (item : Item) (q : Queue) : Queue :=
  let b := batch q ++ [item] in
  if Z.of_nat (List.length b) =? batchSize q
  then {| capacity := capacity q; batchSize := batchSize q;
          batchTimeout := batchTimeout q; inputBuffer := inputBuffer q;
          batch := []; timer := None; numTimeouts := numTimeouts q;
          output := output q ++ [{| items := b; trigger := SizeTriggered |}];
          closed := closed q |}
  else {| capacity := capacity q; batchSize := batchSize q;
          batchTimeout := batchTimeout q; inputBuffer := inputBuffer q;
          batch := b;
          timer := match batch q with
                   | [] => Some (batchTimeout q)
                   | _ => timer q
                   end;
          numTimeouts := numTimeouts q; output := output q;
          closed := closed q |}.

(** Modelled from the spec: the Dispatcher when the timer fires.
    "Accumulating, timer fires: seal and deliver the current batch
    (timeout-triggered emission, increment numTimeouts), clear batch, rearm
    timer -> Idle."  "Idle, timer fires (race where batch was already
    cleared): rearm timer, no emission, no counter change, stay Idle." *)
Definition fire (q : Queue) : Queue :=
  match batch q with
  | [] => {| capacity := capacity q; batchSize := batchSize q;
             batchTimeout := batchTimeout q; inputBuffer := inputBuffer q;
             batch := []; timer := Some (batchTimeout q);
             numTimeouts := numTimeouts q; output := output q;
             closed := closed q |}
  | b => {| capacity := capacity q; batchSize := batchSize q;
            batchTimeout := batchTimeout q; inputBuffer := inputBuffer q;
            batch := []; timer := Some (batchTimeout q);
            numTimeouts := numTimeouts q + 1;
            output := output q ++ [{| items := b; trigger := TimeoutTriggered |}];
            closed := closed q |}
  end.

(** Modelled from the spec: whether the armed timer fires at the next tick
    of the clock ("batchTimeout elapsed since the timer was last armed"). *)
Definition due (q : Queue) : bool :=
  negb (closed q) &&
  match timer q with
  | Some r => r <=? 1
  | None => false
  end.

(** Modelled from the spec: one tick of the clock.  An armed timer comes one
    tick closer to firing, and fires when its time has elapsed; a stopped
    Dispatcher has no timer. *)
Definition tick (q : Queue) : Queue :=
  if closed q then q
  else
    match timer q with
    | None => q
    | Some r =>
        if r <=? 1 then fire q
        else {| capacity := capacity q; batchSize := batchSize q;
                batchTimeout := batchTimeout q; inputBuffer := inputBuffer q;
                batch := batch q; timer := Some (r - 1);
                numTimeouts := numTimeouts q; output := output q;
                closed := closed q |}
    end.

(** Modelled from the spec: the Dispatcher "pulls from the Input Buffer":
    the oldest item of the buffer arrives.  A stopped Dispatcher pulls
    nothing. *)
Definition dispatch (q : Queue) : Queue :=
  if closed q then q
  else
    match inputBuffer q with
    | [] => q
    | item :: rest =>
        arrive item
          {| capacity := capacity q; batchSize := batchSize q;
             batchTimeout := batchTimeout q; inputBuffer := rest;
             batch := batch q; timer := timer q;
             numTimeouts := numTimeouts q; output := output q;
             closed := closed q |}
    end.

(** Modelled from the spec: [Close].  "Close requested, Accumulating: seal
    and deliver the current (possibly partial) batch, then terminate."
    "Close requested, Idle: terminate directly, nothing to flush."  Close
    "stops the Dispatcher, releases the timer"; later writes fail. *)
Definition Close (q : Queue) : Queue :=
  if closed q then q
  else {| capacity := capacity q; batchSize := batchSize q;
          batchTimeout := batchTimeout q; inputBuffer := inputBuffer q;
          batch := []; timer := None; numTimeouts := numTimeouts q;
          output := match batch q with
                    | [] => output q
                    | b => output q ++ [{| items := b; trigger := CloseTriggered |}]
                    end;
          closed := true |}.

(** Modelled from the spec: [NumTimeouts], "diagnostic ... safe to read
    concurrently with dispatching". *)
Definition NumTimeouts (q : Queue) : Z := numTimeouts q.

(** Modelled from the spec: what happens to a queue, one event at a time (the
    "control flow: producer -> Write -> Input Buffer -> Dispatcher -> Output
    Stream"): a producer calls [Write], the Dispatcher pulls an item, the
    clock ticks, or [Close] is called. *)
Inductive Event : Type :=
| EvWrite (item : Item)
| EvDispatch
| EvTick
| EvClose.

Definition step (ev : Event) (q : Queue) : Queue :=
  match ev with
  | EvWrite item => snd (Write item q)
  | EvDispatch => dispatch q
  | EvTick => tick q
  | EvClose => Close q
  end.

(** The queue after the events [evs], in order. *)
Fixpoint run (evs : list Event) (q : Queue) : Queue :=
  match evs with
  | [] => q
  | ev :: evs' => run evs' (step ev q)
  end.

(** The items of the writes of [evs] that returned [Ok] with an item (the
    non-nil items accepted into the Input Buffer), in order. *)
Fixpoint accepted (evs : list Event) (q : Queue) : list Item :=
  match evs with
  | [] => []
  | ev :: evs' =>
      match ev with
      | EvWrite (Some s) =>
          match fst (Write (Some s) q) with
          | Ok => [Some s]
          | _ => []
          end
      | _ => []
      end ++ accepted evs' (step ev q)
  end.

(** How many times the timer fires during [evs]. *)
Fixpoint timeouts (evs : list Event) (q : Queue) : nat :=
  match evs with
  | [] => 0%nat
  | ev :: evs' =>
      (match ev with
       | EvTick => if due q then 1 else 0
       | _ => 0
       end + timeouts evs' (step ev q))%nat
  end.

(** How many ticks of the clock [evs] holds. *)
Fixpoint ticks (evs : list Event) : nat :=
  match evs with
  | [] => 0%nat
  | EvTick :: evs' => S (ticks evs')
  | _ :: evs' => ticks evs'
  end.

Definition isClose (ev : Event) : bool :=
  match ev with
  | EvClose => true
  | _ => false
  end.

(** How many of the batches [out] a timeout sealed. *)
Definition timeoutTriggered (out : list Emission) : Z :=
  Z.of_nat (List.length
              (filter (fun e => match trigger e with
                                | TimeoutTriggered => true
                                | _ => false
                                end) out)).

(** No item of the batches [out] is nil. *)
Definition NoNilItem (out : list Emission) : Prop :=
  Forall (fun e => Forall (fun item : Item => item <> None) (items e)) out.

(** No nil item in the Input Buffer, in the open batch or in a delivered
    batch. *)
Definition NilFree (q : Queue) : Prop :=
  Forall (fun item => item <> None) (inputBuffer q)
  /\ Forall (fun item => item <> None) (batch q)
  /\ NoNilItem (output q).

(** Every delivered batch has [B] items and was sealed by its size. *)
Definition FullBatches (B : Z) (out : list Emission) : Prop :=
  Forall (fun e => Z.of_nat (List.length (items e)) = B
                   /\ trigger e = SizeTriggered) out.

(** The state of a queue of batch size [B] that has accepted the items
    [written] and has seen neither a timeout nor [Close]: the items are, in
    order, in the delivered batches, the open batch and the Input Buffer;
    the delivered batches are full; the open batch is not. *)
Record Batching (B : Z) (written : list Item) (q : Queue) : Prop := {
  bt_size : batchSize q = B;
  bt_open : closed q = false;
  bt_items : List.concat (map items (output q)) ++ batch q ++ inputBuffer q = written;
  bt_full : FullBatches B (output q);
  bt_room : Z.of_nat (List.length (batch q)) < B
}.

(** What the counter gains when the batch [e] is delivered. *)
Definition counted (e : Emission) : Z :=
  match trigger e with
  | TimeoutTriggered => 1
  | _ => 0
  end.

(** The statement that the tests write. *)
Definition testStmt : Item := Some {| Sql := "SELECT * FROM foo" |}.

(** [n] writes of [testStmt], each pulled by the Dispatcher. *)
Definition writes (n : nat) : list Event :=
  List.concat (repeat [EvWrite testStmt; EvDispatch] n).

(** The queue of a successful construction, or a closed empty one. *)
Definition mustNew (c b t : Z) : Queue :=
  match New c b t with
  | Live q => q
  | InvalidConfig =>
      {| capacity := c; batchSize := b; batchTimeout := t; inputBuffer := [];
         batch := []; timer := None; numTimeouts := 0; output := [];
         closed := true |}
  end.

End queue.

(** ** Auxiliary definitions for package history *)

Module aux.

(** The two write statements of [Write], on the entries [es] that are left
    after truncation. *)
Definition writeTail {W : Type} `{io.Writer W} (es : slice) (w : W)
  : outcome (option W * option error) :=
  r <- history.WriteLoop es (Z.to_nat (len es - 1)) 0 w ;;
  match r with
  | (w1, Some e) => Ret (Some w1, Some e)
  | (w1, None) =>
      x <- index es (len es - 1) ;;
      let (w2, err) := io.Write w1 x in
      Ret (Some w2, err)
  end.

(** The environment in which RQLITE_HISTFILESIZE is [v] and nothing else
    is set. *)
Definition histFileSize (v : string) : os.Env :=
  fun key => if (key =? "RQLITE_HISTFILESIZE")%string then Some v else None.

End aux.

(** ** Vocabulary for history files: lines and byte classes *)

Module text.

(** Whether the byte [b] occurs in [s]. *)
Fixpoint hasByte (b : Z) (s : string) : bool :=
  match s with
  | EmptyString => false
  | String c s' => (byte c =? b) || hasByte b s'
  end.

(** Whether [s] ends with a carriage return. *)
Fixpoint endsCR (s : string) : bool :=
  match s with
  | EmptyString => false
  | String c EmptyString => byte c =? 13
  | String _ s' => endsCR s'
  end.

(** A line the scanner can return: no newline in it, and short enough for
    the scanner's buffer. *)
Definition Line (x : string) : Prop :=
  hasByte 10 x = false /\ strlen x < bufio.MaxScanTokenSize.

(** A command that a history file gives back as it is: a line that does not
    end with a carriage return. *)
Definition Storable (x : string) : Prop := Line x /\ endsCR x = false.

(** The lines [es], each followed by a newline. *)
Fixpoint unlines (es : list string) : string :=
  match es with
  | [] => EmptyString
  | x :: t => (x ++ String "010" (unlines t))%string
  end.

(** The ASCII white space: tab, newline, vertical tab, form feed, carriage
    return and space. *)
Definition asciiSpace (b : Z) : bool :=
  (b =? 9) || (b =? 10) || (b =? 11) || (b =? 12) || (b =? 13) || (b =? 32).

Definition asciiOnly (s : string) : bool :=
  forallb (fun c => byte c <? 128) (list_ascii_of_string s).

(** [k := Filter(Dedupe(j))], the first step of [Write]. *)
Definition cleaned (j : slice) : outcome slice :=
  d <- history.Dedupe j ;; history.Filter d.

(** The environment in which the variable [key] alone is set, to [v]. *)
Definition setenv (key v : string) : os.Env :=
  fun k => if (k =? key)%string then Some v else None.

(** The scanner over the data [d] of a reader that ends with [e]. *)
Definition scanning (d : string) (e : option error) (t : string) : bufio.Scanner :=
  {| bufio.data := d; bufio.rdErr := e; bufio.tok := t; bufio.err := None;
     bufio.stopped := false |}.

(** A line of [n] bytes [x]. *)
Definition longLine (n : positive) : string :=
  Pos.iter (String "x") EmptyString n.

End text.

(** ** Slices: indexing lemmas *)

Section SliceFacts.

Implicit Types (l pre rest o : list string) (x y : string).

Lemma len_Some l : len (Some l) = Z.of_nat (List.length l).
Proof. reflexivity. Qed.

Lemma len_nonneg (s : slice) : 0 <= len s.
Proof. unfold len. lia. Qed.

Lemma len_zero_elems (s : slice) : len s = 0 -> elems s = [].
Proof.
  unfold len. destruct (elems s); simpl; [reflexivity | lia].
Qed.

Lemma index_middle pre x rest :
  index (Some (pre ++ x :: rest)) (Z.of_nat (List.length pre)) = Ret x.
Proof.
  unfold index. rewrite len_Some, length_app. simpl List.length.
  replace ((0 <=? Z.of_nat (List.length pre))
           && (Z.of_nat (List.length pre)
               <? Z.of_nat (List.length pre + S (List.length rest)))) with true
    by (symmetry; apply andb_true_iff; split;
        [apply Z.leb_le | apply Z.ltb_lt]; lia).
  rewrite Nat2Z.id. simpl elems.
  rewrite app_nth2, Nat.sub_diag by lia. reflexivity.
Qed.

Lemma index_last o y :
  index (Some (o ++ [y])) (len (Some (o ++ [y])) - 1) = Ret y.
Proof.
  rewrite len_Some, length_app. simpl List.length.
  replace (Z.of_nat (List.length o + 1) - 1) with (Z.of_nat (List.length o)) by lia.
  apply index_middle.
Qed.

End SliceFacts.

(** ** Dedupe *)

Section DedupeFacts.

Import lists.

Implicit Types (l pre rest o : list string) (x y : string).

Lemma squeeze_Subseq y l : Subseq (squeeze y l) l.
Proof.
  revert y. induction l as [|x t IH]; intros y; simpl.
  - constructor.
  - destruct (x =? y)%string; constructor; apply IH.
Qed.

Lemma squeeze_AdjacentDistinct y l : AdjacentDistinct (y :: squeeze y l).
Proof.
  revert y. induction l as [|x t IH]; intros y.
  - exact I.
  - simpl squeeze. destruct (x =? y)%string eqn:E.
    + apply IH.
    + apply String.eqb_neq in E. split; [congruence | apply IH].
Qed.

Lemma squeeze_In y l x : In x l -> In x (y :: squeeze y l).
Proof.
  revert y. induction l as [|z t IH]; intros y H; [destruct H|].
  simpl squeeze. destruct (z =? y)%string eqn:E.
  - apply String.eqb_eq in E. subst z. destruct H as [-> | H].
    + left. reflexivity.
    + apply IH, H.
  - destruct H as [-> | H].
    + right. left. reflexivity.
    + right. apply IH, H.
Qed.

(** The loop, once past index 0, appends [squeeze y rest] to an output that
    ends with [y]; it never indexes out of range. *)
Lemma DedupeLoop_squeeze rest : forall pre o y,
  pre <> [] ->
  history.DedupeLoop (Some (pre ++ rest)) (List.length rest)
    (Z.of_nat (List.length pre)) (Some (o ++ [y]))
  = Ret (Some (o ++ y :: squeeze y rest)).
Proof.
  induction rest as [|x t IH]; intros pre o y Hpre.
  - reflexivity.
  - simpl history.DedupeLoop. rewrite index_middle. simpl bind.
    replace (Z.of_nat (List.length pre) =? 0) with false
      by (symmetry; apply Z.eqb_neq; destruct pre; [congruence | simpl; lia]).
    rewrite index_last. simpl bind.
    replace (Z.of_nat (List.length pre) + 1)
      with (Z.of_nat (List.length (pre ++ [x])))
      by (rewrite length_app; simpl; lia).
    replace (pre ++ x :: t) with ((pre ++ [x]) ++ t)
      by (rewrite <- app_assoc; reflexivity).
    simpl squeeze. destruct (x =? y)%string; simpl negb; cbv iota.
    + apply IH. destruct pre; discriminate.
    + unfold append. simpl elems.
      rewrite (IH (pre ++ [x]) (o ++ [y]) x) by (destruct pre; discriminate).
      rewrite <- app_assoc. reflexivity.
Qed.

Lemma Dedupe_squeezed l : history.Dedupe (Some l) = Ret (Some (squeezed l)).
Proof.
  unfold history.Dedupe. rewrite len_Some, Nat2Z.id.
  destruct l as [|x t]; [reflexivity|].
  simpl history.DedupeLoop.
  apply (DedupeLoop_squeeze t [x] [] x). discriminate.
Qed.

End DedupeFacts.

(** ** Runes, fields and Filter *)

Section FilterFacts.

Import lists.

Implicit Types (l pre rest o : list string) (x y : string).

Lemma take_drop_bytes (n : nat) (s : string) :
  (utf8.takeBytes n s ++ utf8.dropBytes n s)%string = s.
Proof.
  revert s. induction n as [|n IH]; intros s; [reflexivity|].
  destruct s as [|c s]; [reflexivity|]. simpl. rewrite IH. reflexivity.
Qed.

Lemma dropBytes_length (n : nat) (s : string) :
  String.length (utf8.dropBytes n s) = (String.length s - n)%nat.
Proof.
  revert s. induction n as [|n IH]; intros s; simpl.
  - lia.
  - destruct s as [|c s]; simpl; [reflexivity | apply IH].
Qed.

Lemma string_app_empty (s : string) : (s ++ "")%string = s.
Proof. induction s as [|c s IH]; simpl; [|rewrite IH]; reflexivity. Qed.

Lemma concat_empty_cons (a : string) (l : list string) :
  String.concat EmptyString (a :: l)
  = (a ++ String.concat EmptyString l)%string.
Proof.
  destruct l; simpl; [rewrite string_app_empty|]; reflexivity.
Qed.

(** A rune of a non-empty string is at least one byte wide. *)
Lemma DecodeRuneInString_width (c : ascii) (s : string) :
  (1 <= snd (utf8.DecodeRuneInString (String c s)))%nat.
Proof.
  unfold utf8.DecodeRuneInString.
  repeat match goal with
         | |- context [if ?b then _ else _] => destruct b
         | |- context [match ?t with EmptyString => _ | String _ _ => _ end] =>
             destruct t
         end; simpl; lia.
Qed.

(** The fuel of [runes] is enough: the runes visited cover the string. *)
Lemma rangeRunes_cover (fuel : nat) : forall s,
  (String.length s <= fuel)%nat ->
  String.concat EmptyString (map snd (utf8.rangeRunes fuel s)) = s.
Proof.
  induction fuel as [|fuel IH]; intros s Hs.
  - destruct s; [reflexivity | simpl in Hs; lia].
  - destruct s as [|c s]; [reflexivity|].
    cbn [utf8.rangeRunes].
    pose proof (DecodeRuneInString_width c s) as Hw.
    destruct (utf8.DecodeRuneInString (String c s)) as [r w].
    cbn [snd] in Hw. cbn [map snd].
    rewrite concat_empty_cons, IH.
    + apply take_drop_bytes.
    + rewrite dropBytes_length. cbn [String.length] in *. lia.
Qed.

Lemma runes_cover (s : string) :
  String.concat EmptyString (map snd (utf8.runes s)) = s.
Proof. apply rangeRunes_cover. lia. Qed.

Lemma fieldsOf_open (f : Z -> bool) (rs : list (Z * string)) (w : string) :
  strings.fieldsOf f rs (Some w) <> [].
Proof.
  revert w. induction rs as [|[r bs] rs IH]; intros w; simpl.
  - discriminate.
  - destruct (f r); [discriminate | apply IH].
Qed.

Lemma fieldsOf_none (f : Z -> bool) (rs : list (Z * string)) :
  strings.fieldsOf f rs None = [] <-> Forall (fun rb => f (fst rb) = true) rs.
Proof.
  induction rs as [|[r bs] rs IH]; simpl.
  - split; [constructor | reflexivity].
  - destruct (f r) eqn:E.
    + rewrite IH. split; intros H.
      * constructor; assumption.
      * inversion H; assumption.
    + split; intros H.
      * exfalso. exact (fieldsOf_open f rs bs H).
      * inversion H as [|? ? H1 H2]. simpl in H1. congruence.
Qed.

(** [Fields] finds no field exactly in a blank line. *)
Lemma Fields_none_Blank (x : string) :
  len (strings.Fields x) = 0 <-> Blank x.
Proof.
  unfold Blank, strings.Fields. rewrite <- fieldsOf_none. rewrite len_Some.
  destruct (strings.fieldsOf unicode.IsSpace (utf8.runes x) None); simpl.
  - split; reflexivity.
  - split; [lia | discriminate].
Qed.

Lemma Blank_empty : Blank EmptyString.
Proof. constructor. Qed.

Lemma kept_not_Blank (x : string) : kept x = true <-> ~ Blank x.
Proof.
  unfold kept. rewrite negb_true_iff, orb_false_iff, Z.eqb_neq, String.eqb_neq.
  rewrite Fields_none_Blank. split.
  - intros [_ H]. exact H.
  - intros H. split; [|exact H]. intros ->. apply H, Blank_empty.
Qed.

Lemma kept_fields (x : string) :
  kept x = true <-> x <> EmptyString /\ elems (strings.Fields x) <> [].
Proof.
  unfold kept. rewrite negb_true_iff, orb_false_iff, Z.eqb_neq, String.eqb_neq.
  unfold len. destruct (elems (strings.Fields x)); simpl; split; intros [H1 H2];
    split; try assumption; try discriminate; try lia; congruence.
Qed.

Lemma FilterLoop_filter rest : forall pre o,
  history.FilterLoop (Some (pre ++ rest)) (List.length rest)
    (Z.of_nat (List.length pre)) (Some o)
  = Ret (Some (o ++ filter kept rest)).
Proof.
  induction rest as [|x t IH]; intros pre o.
  - simpl. rewrite app_nil_r. reflexivity.
  - simpl history.FilterLoop. rewrite index_middle. simpl bind.
    replace (Z.of_nat (List.length pre) + 1)
      with (Z.of_nat (List.length (pre ++ [x])))
      by (rewrite length_app; simpl; lia).
    replace (pre ++ x :: t) with ((pre ++ [x]) ++ t)
      by (rewrite <- app_assoc; reflexivity).
    simpl filter.
    replace (kept x)
      with (negb ((x =? "")%string || (len (strings.Fields x) =? 0)))
      by reflexivity.
    destruct ((x =? "")%string || (len (strings.Fields x) =? 0)); simpl negb;
      cbv iota.
    + apply IH.
    + unfold append. simpl elems. rewrite IH, <- app_assoc. reflexivity.
Qed.

Lemma Filter_filter l : history.Filter (Some l) = Ret (Some (filter kept l)).
Proof.
  unfold history.Filter. rewrite len_Some, Nat2Z.id.
  apply (FilterLoop_filter l [] []).
Qed.

Lemma filter_Subseq {A : Type} (f : A -> bool) (l : list A) :
  Subseq (filter f l) l.
Proof.
  induction l as [|a l IH]; simpl; [constructor|].
  destruct (f a); constructor; assumption.
Qed.

End FilterFacts.

(** ** Write *)

Section WriteFacts.

Import lists aux.

Context {W : Type} `{HW : io.Writer W}.

Implicit Types (l pre rest o k es : list string) (x y : string) (w : W).

Lemma wrap_small (z : Z) : isInt z -> wrap z = z.
Proof.
  unfold isInt, wrap, minInt, maxInt. intros H.
  rewrite Z.mod_small; lia.
Qed.

(** Past the [int] range the value wraps to a negative one. *)
Lemma wrap_overflow (z : Z) : maxInt < z <= maxInt + 2 ^ 63 -> wrap z < 0.
Proof.
  unfold wrap, maxInt. intros H.
  replace (z + 2 ^ 63) with ((z - 2 ^ 63) + 1 * 2 ^ 64) by lia.
  rewrite Z.mod_add by lia. rewrite Z.mod_small; lia.
Qed.

(** With a negative [maxSz] the bound [n - maxSz] of the slice expression is
    never within [0..n]. *)
Lemma bound_out_of_range (n maxSz : Z) :
  0 < n <= maxInt -> isInt maxSz -> maxSz < 0 ->
  ~ (0 <= wrap (n - maxSz) <= n).
Proof.
  intros Hn Hint Hneg.
  destruct (Z_le_gt_dec (n - maxSz) maxInt) as [Hfit | Hover].
  - rewrite wrap_small by (unfold isInt, minInt, maxInt in *; lia). lia.
  - pose proof (wrap_overflow (n - maxSz)) as Ho.
    unfold isInt, minInt, maxInt in *. lia.
Qed.

Lemma Subseq_length {A : Type} (o s : list A) :
  Subseq o s -> (List.length o <= List.length s)%nat.
Proof. induction 1; simpl; lia. Qed.

Lemma squeezed_Subseq l : Subseq (squeezed l) l.
Proof.
  destruct l as [|x t]; simpl; constructor. apply squeeze_Subseq.
Qed.

Lemma writeEach_app w (a b : list string) :
  io.writeEach w (a ++ b)
  = let (w1, e) := io.writeEach w a in
    match e with
    | Some _ => (w1, e)
    | None => io.writeEach w1 b
    end.
Proof.
  revert w. induction a as [|c a IH]; intros w; simpl.
  - reflexivity.
  - destruct (io.Write w c) as [w' [e|]]; [reflexivity | apply IH].
Qed.

Lemma chunks_snoc (init : list string) (z : string) :
  chunks (init ++ [z]) = map (fun x => (x ++ newline)%string) init ++ [z].
Proof.
  induction init as [|x t IH]; [reflexivity|].
  simpl app. simpl map. rewrite <- IH.
  destruct (t ++ [z]) eqn:E; [destruct t; discriminate | reflexivity].
Qed.

Lemma string_app_assoc (a b c : string) :
  ((a ++ b) ++ c)%string = (a ++ (b ++ c))%string.
Proof. induction a as [|ch a IH]; simpl; [|rewrite IH]; reflexivity. Qed.

(** The chunks written, put end to end, are the entries joined by newlines. *)
Lemma chunks_joinLines es :
  String.concat EmptyString (chunks es) = joinLines es.
Proof.
  unfold joinLines. induction es as [|x [|y t] IH]; try reflexivity.
  change (chunks (x :: y :: t)) with ((x ++ newline)%string :: chunks (y :: t)).
  rewrite concat_empty_cons, IH. simpl String.concat.
  apply string_app_assoc.
Qed.

Lemma WriteLoop_writeEach rest : forall pre tail w,
  history.WriteLoop (Some (pre ++ rest ++ tail)) (List.length rest)
    (Z.of_nat (List.length pre)) w
  = Ret (io.writeEach w (map (fun x => (x ++ newline)%string) rest)).
Proof.
  induction rest as [|x t IH]; intros pre tail w.
  - reflexivity.
  - simpl history.WriteLoop. simpl app. rewrite index_middle. simpl bind.
    simpl map. simpl io.writeEach. fold newline.
    destruct (io.Write w (x ++ newline)%string) as [w' [e|]]; [reflexivity|].
    replace (Z.of_nat (List.length pre) + 1)
      with (Z.of_nat (List.length (pre ++ [x])))
      by (rewrite length_app; simpl; lia).
    replace (pre ++ x :: t ++ tail) with ((pre ++ [x]) ++ t ++ tail)
      by (rewrite <- app_assoc; reflexivity).
    apply IH.
Qed.

Lemma writeTail_chunks es w :
  es <> [] ->
  writeTail (Some es) w
  = Ret (let (w', e) := io.writeEach w (chunks es) in (Some w', e)).
Proof.
  intros Hes. destruct (exists_last Hes) as [init [z ->]].
  unfold writeTail. rewrite chunks_snoc, writeEach_app.
  rewrite len_Some, length_app. simpl List.length.
  replace (Z.to_nat (Z.of_nat (List.length init + 1) - 1))
    with (List.length init) by lia.
  pose proof (WriteLoop_writeEach init [] [z] w) as HL.
  simpl app in HL. simpl Z.of_nat in HL. rewrite HL. simpl bind.
  destruct (io.writeEach w (map (fun x => (x ++ newline)%string) init))
    as [w1 [e|]]; [reflexivity|].
  pose proof (index_last init z) as HI.
  rewrite len_Some, length_app in HI. simpl List.length in HI.
  rewrite HI. simpl bind. simpl io.writeEach.
  destruct (io.Write w1 z) as [w2 [e|]]; reflexivity.
Qed.

Lemma writeTail_empty w :
  writeTail (Some []) w = Panic (IndexOutOfRange (-1) 0).
Proof. reflexivity. Qed.

(** [Write] on a non-nil writer, once the history [k] is known non-empty. *)
Lemma Write_unfold l maxSz w :
  filter kept (squeezed l) <> [] ->
  history.Write (Some l) maxSz (Some w)
  = (let k := Some (filter kept (squeezed l)) in
     k' <- (if len k >? maxSz then sliceFrom k (wrap (len k - maxSz))
            else Ret k) ;;
     writeTail k' w).
Proof.
  intros Hk. unfold history.Write.
  destruct l as [|x t]; [contradiction Hk; reflexivity|].
  replace (len (Some (x :: t)) =? 0) with false
    by (symmetry; apply Z.eqb_neq; rewrite len_Some; simpl; lia).
  rewrite Dedupe_squeezed. cbn [bind]. rewrite Filter_filter. cbn [bind].
  replace (len (Some (filter kept (squeezed (x :: t)))) =? 0) with false.
  - reflexivity.
  - symmetry. apply Z.eqb_neq. rewrite len_Some.
    destruct (filter kept (squeezed (x :: t))); [contradiction Hk; reflexivity|].
    simpl; lia.
Qed.

Lemma kept_length l :
  (List.length (filter kept (squeezed l)) <= List.length l)%nat.
Proof.
  pose proof (Subseq_length _ _ (filter_Subseq kept (squeezed l))).
  pose proof (Subseq_length _ _ (squeezed_Subseq l)). lia.
Qed.

Lemma Write_positive l maxSz w :
  0 < maxSz -> Z.of_nat (List.length l) <= maxInt ->
  let k := filter kept (squeezed l) in
  history.Write (Some l) maxSz (Some w)
  = Ret (let (w', e) :=
           io.writeEach w (chunks (lastN (Z.to_nat (Z.min maxSz (len (Some k)))) k))
         in (Some w', e)).
Proof.
  intros Hpos Hlen k.
  destruct k as [|k0 kt] eqn:Ek.
  - (* nothing to write *)
    unfold history.Write. destruct (len (Some l) =? 0); [reflexivity|].
    rewrite Dedupe_squeezed. cbn [bind]. rewrite Filter_filter. cbn [bind].
    fold k. rewrite Ek. reflexivity.
  - rewrite Write_unfold by (fold k; rewrite Ek; discriminate).
    fold k. rewrite Ek. cbv zeta.
    pose proof (kept_length l) as Hkl. fold k in Hkl. rewrite Ek in Hkl.
    set (kk := k0 :: kt) in *.
    assert (Hn : 0 < len (Some kk)) by (rewrite len_Some; simpl; lia).
    assert (Hm : len (Some kk) <= maxInt) by (rewrite len_Some; lia).
    destruct (len (Some kk) >? maxSz) eqn:Egt.
    + apply Z.gtb_lt in Egt.
      rewrite wrap_small by (unfold isInt, minInt, maxInt in *; lia).
      unfold sliceFrom.
      replace ((0 <=? len (Some kk) - maxSz)
               && (len (Some kk) - maxSz <=? len (Some kk))) with true
        by (symmetry; apply andb_true_iff; split; apply Z.leb_le; lia).
      simpl bind. rewrite Z.min_l by lia.
      unfold lastN.
      replace (List.length kk - Z.to_nat maxSz)%nat
        with (Z.to_nat (len (Some kk) - maxSz)) by (rewrite len_Some; lia).
      apply writeTail_chunks.
      intros Hnil. apply (f_equal (@List.length string)) in Hnil.
      rewrite length_skipn in Hnil.
      change (List.length (@nil string)) with 0%nat in Hnil.
      rewrite len_Some in Hnil, Egt, Hn. lia.
    + simpl bind.
      assert (Hle : len (Some kk) <= maxSz).
      { destruct (Z.gtb_spec (len (Some kk)) maxSz); [discriminate | lia]. }
      rewrite Z.min_r by lia. unfold lastN.
      replace (List.length kk - Z.to_nat (len (Some kk)))%nat with 0%nat
        by (rewrite len_Some; lia).
      simpl skipn. apply writeTail_chunks. discriminate.
Qed.

Lemma Write_zero l w :
  filter kept (squeezed l) <> [] -> Z.of_nat (List.length l) <= maxInt ->
  history.Write (Some l) 0 (Some w) = Panic (IndexOutOfRange (-1) 0).
Proof.
  intros Hk Hlen. rewrite Write_unfold by assumption. cbv zeta.
  pose proof (kept_length l) as Hkl.
  set (kk := filter kept (squeezed l)) in *.
  assert (Hn : 0 < len (Some kk)).
  { rewrite len_Some. destruct kk; [contradiction Hk; reflexivity | simpl; lia]. }
  replace (len (Some kk) >? 0) with true
    by (symmetry; apply Z.gtb_lt; lia).
  rewrite Z.sub_0_r.
  rewrite wrap_small
    by (unfold isInt, minInt, maxInt in *; rewrite len_Some in *; lia).
  unfold sliceFrom.
  replace ((0 <=? len (Some kk)) && (len (Some kk) <=? len (Some kk))) with true
    by (symmetry; apply andb_true_iff; split; apply Z.leb_le; lia).
  simpl bind. rewrite len_Some, Nat2Z.id, skipn_all. apply writeTail_empty.
Qed.

Lemma Write_negative l maxSz w :
  filter kept (squeezed l) <> [] -> Z.of_nat (List.length l) <= maxInt ->
  isInt maxSz -> maxSz < 0 ->
  let k := Some (filter kept (squeezed l)) in
  history.Write (Some l) maxSz (Some w)
  = Panic (SliceBoundsOutOfRange (wrap (len k - maxSz)) (len k)).
Proof.
  intros Hk Hlen Hint Hneg k. rewrite Write_unfold by assumption. cbv zeta.
  fold k.
  pose proof (kept_length l) as Hkl.
  assert (Hn : 0 < len k).
  { unfold k. rewrite len_Some.
    destruct (filter kept (squeezed l)); [contradiction Hk; reflexivity|].
    simpl; lia. }
  assert (Hm : len k <= maxInt) by (unfold k; rewrite len_Some; lia).
  replace (len k >? maxSz) with true by (symmetry; apply Z.gtb_lt; lia).
  unfold sliceFrom.
  replace ((0 <=? wrap (len k - maxSz)) && (wrap (len k - maxSz) <=? len k))
    with false; [reflexivity|].
  symmetry. apply andb_false_iff.
  pose proof (bound_out_of_range (len k) maxSz ltac:(lia) Hint Hneg) as Hb.
  destruct (Z_le_gt_dec 0 (wrap (len k - maxSz))) as [H0 | H0].
  - right. apply Z.leb_gt. lia.
  - left. apply Z.leb_gt. lia.
Qed.

End WriteFacts.

(** ** Read *)

Section ReadFacts.

Import lists.

Lemma cutLine_rest (s : string) (line d : string) :
  bufio.cutLine s = (line, Some d) -> (String.length d < String.length s)%nat.
Proof.
  revert line. induction s as [|c s IH]; intros line H; simpl in H.
  - discriminate.
  - destruct (byte c =? 10).
    + inversion H; subst. simpl. lia.
    + destruct (bufio.cutLine s) as [l0 r0]. inversion H; subst.
      specialize (IH l0 eq_refl). simpl. lia.
Qed.

(** A successful [Scan] leaves less data to read. *)
Lemma Scan_progress (sc sc' : bufio.Scanner) :
  bufio.Scan sc = (true, sc') ->
  (String.length (bufio.data sc') < String.length (bufio.data sc))%nat.
Proof.
  unfold bufio.Scan. destruct (bufio.stopped sc); [discriminate|].
  destruct (bufio.data sc) as [|c d] eqn:Ed; [discriminate|].
  destruct (bufio.cutLine (String c d)) as [line rest] eqn:Ec.
  destruct (bufio.MaxScanTokenSize <=? strlen line); [discriminate|].
  intros H. inversion H; subst. simpl.
  destruct rest as [r|].
  - apply (cutLine_rest _ _ _ Ec).
  - simpl. lia.
Qed.

Lemma Scan_done (sc sc' : bufio.Scanner) :
  bufio.Scan sc = (false, sc') -> bufio.stopped sc' = true.
Proof.
  unfold bufio.Scan. destruct (bufio.stopped sc) eqn:Es.
  - intros H. inversion H; subst. exact Es.
  - destruct (bufio.data sc) as [|c d].
    + intros H. inversion H; subst. reflexivity.
    + destruct (bufio.cutLine (String c d)) as [line rest].
      destruct (bufio.MaxScanTokenSize <=? strlen line); intros H;
        inversion H; subst; reflexivity.
Qed.

(** The fuel of [ReadLoop] is enough: the loop ends because [Scan] returned
    false, and the commands collected form a non-nil slice. *)
Lemma ReadLoop_ends (fuel : nat) : forall sc o,
  (String.length (bufio.data sc) < fuel)%nat ->
  exists sc' o',
    history.ReadLoop fuel sc (Some o) = (sc', Some o')
    /\ bufio.stopped sc' = true.
Proof.
  induction fuel as [|fuel IH]; intros sc o Hf; [lia|].
  simpl. destruct (bufio.Scan sc) as [[|] sc1] eqn:E.
  - apply IH. apply Scan_progress in E. lia.
  - exists sc1, o. split; [reflexivity | apply (Scan_done _ _ E)].
Qed.

Lemma Read_filtered {R : Type} `{HR : io.Reader R} (r : R) :
  exists cmds e,
    history.Read (Some r) = Ret (Some (filter kept cmds), e).
Proof.
  unfold history.Read.
  destruct (ReadLoop_ends (S (String.length (bufio.data (bufio.NewScanner r))))
              (bufio.NewScanner r) [] ltac:(lia)) as [sc' [o' [HL _]]].
  rewrite HL. rewrite Filter_filter. simpl bind.
  exists o', (bufio.Err sc'). reflexivity.
Qed.

End ReadFacts.

(** ** The queue: steps of the Dispatcher *)

Section QueueFacts.

Import queue.

Implicit Types (q : Queue) (ev : Event) (evs : list Event) (item : Item).

Ltac queue_cases :=
  repeat match goal with
         | |- context [if ?b then _ else _] => destruct b eqn:?
         | |- context [match ?x with _ => _ end] => destruct x eqn:?
         end.

Ltac emits_done :=
  cbn; rewrite ?app_nil_r; repeat split;
  unfold timeoutTriggered; simpl; try reflexivity; lia.

Lemma timeoutTriggered_app (a b : list Emission) :
  timeoutTriggered (a ++ b) = timeoutTriggered a + timeoutTriggered b.
Proof.
  unfold timeoutTriggered. rewrite filter_app, length_app. lia.
Qed.

Lemma run_app evs1 evs2 q : run (evs1 ++ evs2) q = run evs2 (run evs1 q).
Proof.
  revert q. induction evs1 as [|ev evs1 IH]; intros q; [reflexivity|].
  simpl. apply IH.
Qed.

(** What one event adds to the Output Stream and to the counter: at most
    one batch, and one count exactly when a timeout sealed it. *)
Lemma step_emits ev q :
  exists delta : list Emission,
    output (step ev q) = output q ++ delta
    /\ (List.length delta <= 1)%nat
    /\ numTimeouts (step ev q) = numTimeouts q + timeoutTriggered delta.
Proof.
  destruct ev as [item| | |]; cbn [step].
  - exists []. unfold Write. queue_cases; emits_done.
  - unfold dispatch, arrive. queue_cases;
      first [ solve [exists []; emits_done] | solve [eexists [_]; emits_done] ].
  - unfold tick, fire. queue_cases;
      first [ solve [exists []; emits_done] | solve [eexists [_]; emits_done] ].
  - unfold Close. queue_cases;
      first [ solve [exists []; emits_done] | solve [eexists [_]; emits_done] ].
Qed.

Lemma timeoutTriggered_nonneg (out : list Emission) : 0 <= timeoutTriggered out.
Proof. unfold timeoutTriggered. lia. Qed.

Lemma run_counts evs : forall q,
  numTimeouts (run evs q) - timeoutTriggered (output (run evs q))
  = numTimeouts q - timeoutTriggered (output q).
Proof.
  induction evs as [|ev evs IH]; intros q; [reflexivity|].
  simpl run. rewrite IH.
  destruct (step_emits ev q) as [delta [Ho [_ Hn]]].
  rewrite Ho, Hn, timeoutTriggered_app. lia.
Qed.

Lemma run_monotone evs : forall q, numTimeouts q <= numTimeouts (run evs q).
Proof.
  induction evs as [|ev evs IH]; intros q; simpl; [lia|].
  destruct (step_emits ev q) as [delta [_ [_ Hn]]].
  pose proof (timeoutTriggered_nonneg delta). specialize (IH (step ev q)). lia.
Qed.

Lemma New_Live (c b t : Z) q :
  New c b t = Live q ->
  0 < c /\ 0 < b /\ 0 < t
  /\ q = {| capacity := c; batchSize := b; batchTimeout := t;
            inputBuffer := []; batch := []; timer := None; numTimeouts := 0;
            output := []; closed := false |}.
Proof.
  unfold New. destruct ((0 <? c) && (0 <? b) && (0 <? t)) eqn:E; [|discriminate].
  intros H. inversion H; subst. clear H.
  apply andb_true_iff in E. destruct E as [E E3].
  apply andb_true_iff in E. destruct E as [E1 E2].
  apply Z.ltb_lt in E1, E2, E3. repeat split; assumption.
Qed.

Lemma step_NilFree ev q : NilFree q -> NilFree (step ev q).
Proof.
  unfold NilFree, NoNilItem. intros [Hi [Hb Ho]].
  destruct ev as [item| | |]; cbn [step].
  - unfold Write. destruct item as [s|]; [|repeat split; assumption].
    destruct (closed q); [repeat split; assumption|].
    destruct (_ <? _); cbn; [|repeat split; assumption].
    repeat split; try assumption.
    apply Forall_app. split; [assumption|]. constructor; [discriminate|constructor].
  - unfold dispatch. destruct (closed q); [repeat split; assumption|].
    destruct (inputBuffer q) as [|item rest] eqn:Eb; [repeat split; try assumption|].
    + rewrite Eb. constructor.
    + inversion Hi as [|? ? Hitem Hrest]; subst.
      assert (Hb' : Forall (fun item => item <> None) (batch q ++ [item])).
      { apply Forall_app. split; [assumption|]. constructor; [assumption|constructor]. }
      unfold arrive. cbn. destruct (_ =? _); cbn; repeat split; try assumption.
      * constructor.
      * apply Forall_app. split; [assumption|].
        constructor; [exact Hb' | constructor].
  - unfold tick. destruct (closed q); [repeat split; assumption|].
    destruct (timer q) as [r|]; [|repeat split; assumption].
    destruct (r <=? 1); [|cbn; repeat split; assumption].
    unfold fire. destruct (batch q) as [|x b] eqn:Eb; cbn;
      repeat split; try assumption; try constructor.
    apply Forall_app. split; [assumption|].
    constructor; [exact Hb | constructor].
  - unfold Close. destruct (closed q); [repeat split; assumption|].
    cbn. repeat split; try assumption; [constructor|].
    destruct (batch q) as [|x b] eqn:Eb; [assumption|].
    apply Forall_app. split; [assumption|].
    constructor; [exact Hb | constructor].
Qed.

Lemma run_NilFree evs : forall q, NilFree q -> NilFree (run evs q).
Proof.
  induction evs as [|ev evs IH]; intros q H; [exact H|].
  simpl. apply IH, step_NilFree, H.
Qed.

End QueueFacts.

(** ** The queue: batches sealed by size and by timeout *)

Section BatchFacts.

Import queue.

Implicit Types (q : Queue) (ev : Event) (evs : list Event) (item : Item).

Lemma concat_items_snoc (out : list Emission) (e : Emission) :
  List.concat (map items (out ++ [e])) = List.concat (map items out) ++ items e.
Proof.
  rewrite map_app, List.concat_app. simpl. rewrite app_nil_r. reflexivity.
Qed.

Lemma step_Batching B written ev q :
  Batching B written q -> isClose ev = false ->
  (ev = EvTick -> due q = false) ->
  Batching B (written ++ accepted [ev] q) (step ev q).
Proof.
  intros [Hs Ho Hi Hf Hr] Hc Hd.
  destruct ev as [item| | |]; cbn [step accepted]; rewrite ?app_nil_r.
  - (* a write *)
    unfold Write. destruct item as [s|]; cbn [fst snd].
    + rewrite Ho.
      destruct (Z.of_nat (List.length (inputBuffer q)) <? capacity q);
        cbn [fst snd]; rewrite ?app_nil_r.
      * constructor; cbn; try assumption.
        rewrite <- Hi, <- !app_assoc. reflexivity.
      * constructor; assumption.
    + rewrite app_nil_r. constructor; assumption.
  - (* the Dispatcher pulls an item *)
    unfold dispatch. rewrite Ho.
    destruct (inputBuffer q) as [|item rest] eqn:Eb.
    + constructor; try assumption. rewrite Eb. exact Hi.
    + unfold arrive. cbn [batch batchSize]. rewrite length_app. simpl List.length.
      destruct (Z.of_nat (List.length (batch q) + 1) =? batchSize q) eqn:E.
      * apply Z.eqb_eq in E.
        constructor; cbn; try assumption.
        -- rewrite concat_items_snoc. cbn [items].
           rewrite <- Hi, <- !app_assoc. reflexivity.
        -- apply Forall_app. split; [assumption|].
           constructor; [|constructor]. cbn [items trigger].
           rewrite length_app. simpl List.length. split; [lia | reflexivity].
        -- lia.
      * apply Z.eqb_neq in E.
        constructor; cbn; try assumption.
        -- rewrite <- Hi, <- !app_assoc. reflexivity.
        -- rewrite length_app. simpl List.length. lia.
  - (* a tick at which the timer does not fire *)
    specialize (Hd eq_refl). unfold due in Hd. unfold tick.
    rewrite Ho in *. cbn [negb andb] in Hd.
    destruct (timer q) as [r|]; [|constructor; assumption].
    rewrite Hd. constructor; assumption.
  - discriminate Hc.
Qed.

Lemma accepted_cons ev evs q :
  accepted (ev :: evs) q = accepted [ev] q ++ accepted evs (step ev q).
Proof. cbn [accepted]. rewrite app_nil_r. reflexivity. Qed.

Lemma run_Batching B evs : forall written q,
  Batching B written q ->
  forallb (fun ev => negb (isClose ev)) evs = true ->
  timeouts evs q = 0%nat ->
  Batching B (written ++ accepted evs q) (run evs q).
Proof.
  induction evs as [|ev evs IH]; intros written q Hb Hc Ht.
  - simpl. rewrite app_nil_r. exact Hb.
  - cbn [forallb] in Hc. apply andb_true_iff in Hc. destruct Hc as [Hc1 Hc2].
    cbn [timeouts] in Ht.
    rewrite accepted_cons, app_assoc. cbn [run].
    apply IH; [|assumption|lia].
    apply step_Batching; [assumption | |].
    + destruct (isClose ev); [discriminate | reflexivity].
    + intros ->. destruct (due q); [simpl in Ht; lia | reflexivity].
Qed.

(** Without a timer firing the counter stays as it is. *)
Lemma run_no_timeout evs : forall q,
  timeouts evs q = 0%nat -> numTimeouts (run evs q) = numTimeouts q.
Proof.
  induction evs as [|ev evs IH]; intros q Ht; [reflexivity|].
  cbn [timeouts] in Ht. cbn [run]. rewrite IH by lia.
  destruct ev as [item| | |]; cbn [step].
  - unfold Write. destruct item; [|reflexivity].
    destruct (closed q); [reflexivity|]. destruct (_ <? _); reflexivity.
  - unfold dispatch. destruct (closed q); [reflexivity|].
    destruct (inputBuffer q); [reflexivity|].
    unfold arrive. cbn. destruct (_ =? _); reflexivity.
  - unfold due in Ht. unfold tick. destruct (closed q); [reflexivity|].
    destruct (timer q) as [r|]; [|reflexivity].
    cbn [negb andb] in Ht. destruct (r <=? 1); [simpl in Ht; lia | reflexivity].
  - unfold Close. destruct (closed q); reflexivity.
Qed.

Lemma FullBatches_length B (out : list Emission) :
  FullBatches B out ->
  Z.of_nat (List.length (List.concat (map items out)))
  = Z.of_nat (List.length out) * B.
Proof.
  induction 1 as [|e out [He _] _ IH]; [reflexivity|].
  cbn [map List.concat List.length]. rewrite length_app. lia.
Qed.

(** While the batch is empty, ticks deliver nothing and count nothing. *)
Lemma ticks_idle (n : nat) : forall q,
  batch q = [] ->
  output (run (repeat EvTick n) q) = output q
  /\ numTimeouts (run (repeat EvTick n) q) = numTimeouts q.
Proof.
  induction n as [|n IH]; intros q Hb; [split; reflexivity|].
  cbn [repeat run step].
  assert (Ht : batch (tick q) = [] /\ output (tick q) = output q
               /\ numTimeouts (tick q) = numTimeouts q).
  { unfold tick. destruct (closed q); [repeat split; assumption|].
    destruct (timer q) as [r|]; [|repeat split; assumption].
    destruct (r <=? 1); [|repeat split; assumption].
    unfold fire. rewrite Hb. repeat split. }
  destruct Ht as [Hb' [Ho' Hn']].
  destruct (IH (tick q) Hb') as [Ho Hn]. split; congruence.
Qed.

(** An armed timer fires once its ticks have elapsed, and delivers the open
    batch. *)
Lemma ticks_accumulating (n : nat) : forall q (r : Z),
  closed q = false -> batch q <> [] -> timer q = Some r ->
  1 <= r <= Z.of_nat n ->
  output (run (repeat EvTick n) q)
  = output q ++ [{| items := batch q; trigger := TimeoutTriggered |}]
  /\ numTimeouts (run (repeat EvTick n) q) = numTimeouts q + 1.
Proof.
  induction n as [|n IH]; intros q r Hc Hb Ht Hr; [lia|].
  cbn [repeat run step]. unfold tick. rewrite Hc, Ht.
  destruct (r <=? 1) eqn:E.
  - unfold fire. destruct (batch q) as [|x b] eqn:Eb; [contradiction Hb; reflexivity|].
    match goal with
    | |- context [run _ ?q1] => destruct (ticks_idle n q1 eq_refl) as [Ho Hn]
    end.
    rewrite Ho, Hn. split; reflexivity.
  - apply Z.leb_gt in E.
    match goal with
    | |- context [run _ ?q1] =>
        destruct (IH q1 (r - 1) eq_refl Hb eq_refl ltac:(lia)) as [Ho Hn]
    end.
    rewrite Ho, Hn. split; reflexivity.
Qed.

Lemma step_batchTimeout ev q : batchTimeout (step ev q) = batchTimeout q.
Proof.
  destruct ev as [item| | |]; cbn [step].
  - unfold Write. destruct item; [|reflexivity].
    destruct (closed q); [reflexivity|]. destruct (_ <? _); reflexivity.
  - unfold dispatch. destruct (closed q); [reflexivity|].
    destruct (inputBuffer q); [reflexivity|].
    unfold arrive. cbn. destruct (_ =? _); reflexivity.
  - unfold tick, fire. destruct (closed q); [reflexivity|].
    destruct (timer q) as [r|]; [|reflexivity].
    destruct (r <=? 1); [|reflexivity]. destruct (batch q); reflexivity.
  - unfold Close. destruct (closed q); reflexivity.
Qed.

(** The timer cannot fire in less time than [batchTimeout]: when [k] ticks
    have gone by and the timer, if armed, has at least [batchTimeout - k]
    ticks to go, events that bring the ticks to less than [batchTimeout] see
    no timeout. *)
Lemma few_ticks_no_timeout evs : forall q (k : Z),
  0 <= k ->
  (forall r : Z, timer q = Some r -> batchTimeout q - k <= r) ->
  k + Z.of_nat (ticks evs) < batchTimeout q ->
  timeouts evs q = 0%nat.
Proof.
  induction evs as [|ev evs IH]; intros q k Hk Ht Hlt; [reflexivity|].
  cbn [timeouts].
  pose proof (step_batchTimeout ev q) as Hstep.
  destruct ev as [item| | |]; cbn [ticks] in Hlt; cbn [Nat.add].
  - apply (IH _ k Hk); [|rewrite Hstep; exact Hlt].
    cbn [step]. unfold Write. destruct item; [|exact Ht].
    destruct (closed q); [exact Ht|]. destruct (_ <? _); exact Ht.
  - apply (IH _ k Hk); [|rewrite Hstep; exact Hlt].
    cbn [step]. unfold dispatch. destruct (closed q); [exact Ht|].
    destruct (inputBuffer q); [exact Ht|].
    unfold arrive. cbn. destruct (_ =? _); cbn; [discriminate|].
    destruct (batch q); [|exact Ht].
    intros r Hr. inversion Hr; subst. lia.
  - assert (Hd : due q = false).
    { unfold due. destruct (closed q); [reflexivity|].
      destruct (timer q) as [r|] eqn:Er; [|reflexivity].
      cbn [negb andb]. apply Z.leb_gt. specialize (Ht r eq_refl). lia. }
    rewrite Hd. cbn [Nat.add].
    apply (IH _ (k + 1)); [lia | |rewrite Hstep; lia].
    cbn [step]. unfold due in Hd. unfold tick. destruct (closed q).
    + intros r Hr. specialize (Ht r Hr). lia.
    + destruct (timer q) as [r|] eqn:Er; [|intros r Hr; congruence].
      cbn [negb andb] in Hd. rewrite Hd. cbn.
      intros r' Hr'. inversion Hr'; subst. specialize (Ht r eq_refl). lia.
  - apply (IH _ k Hk); [|rewrite Hstep; exact Hlt].
    cbn [step]. unfold Close. destruct (closed q); [exact Ht|]. cbn. discriminate.
Qed.

(** On a new queue, events with fewer ticks than [batchTimeout] see no
    timeout. *)
Lemma New_few_ticks (c b t : Z) q0 evs :
  New c b t = Live q0 -> Z.of_nat (ticks evs) < t -> timeouts evs q0 = 0%nat.
Proof.
  intros HN Hlt. apply New_Live in HN. destruct HN as [_ [_ [_ ->]]].
  apply (few_ticks_no_timeout evs _ 0); cbn; [lia | discriminate | lia].
Qed.

End BatchFacts.

(** ** Properties of package history *)

Section HistoryClaims.

Import lists aux.

Lemma Buffer_writeEach (b : io.Buffer) (cs : list string) :
  io.writeEach b cs
  = ({| io.contents := (io.contents b ++ String.concat EmptyString cs)%string |},
     None).
Proof.
  revert b. induction cs as [|c cs IH]; intros [s].
  - simpl. rewrite string_app_empty. reflexivity.
  - cbn [io.writeEach]. unfold io.Write at 1, io.Buffer_Writer at 1.
    rewrite IH, concat_empty_cons. cbn [io.contents].
    rewrite string_app_assoc. reflexivity.
Qed.

Lemma pipeline_Some (l : list string) :
  (d <- history.Dedupe (Some l) ;; history.Filter d)
  = Ret (Some (filter kept (squeezed l))).
Proof. rewrite Dedupe_squeezed. cbn [bind]. apply Filter_filter. Qed.

Lemma Write_nil_slice {W : Type} `{HW : io.Writer W} (maxSz : Z) (w : option W) :
  history.Write None maxSz w = Ret (w, None).
Proof. reflexivity. Qed.

Lemma Write_nil_writer {W : Type} `{HW : io.Writer W} (j : slice) (maxSz : Z) :
  history.Write j maxSz (@None W) = Ret (None, None).
Proof. unfold history.Write. destruct (len j =? 0); reflexivity. Qed.

(** C9. [Size] returns the integer that RQLITE_HISTFILESIZE parses to,
    whatever its sign (the guard [maxSize > 0] tests the default, which is
    100); it returns [MaxHistSize] = 100 when the variable is unset or does
    not parse. *)
Theorem Size_parsed_or_default :
  forall env : os.Env,
    history.MaxHistSize = 100
    /\ (forall (v : string) (n : Z),
          env "RQLITE_HISTFILESIZE"%string = Some v ->
          strconv.Atoi v = Some n -> history.Size env = n)
    /\ (env "RQLITE_HISTFILESIZE"%string = None -> history.Size env = 100)
    /\ (forall v : string,
          env "RQLITE_HISTFILESIZE"%string = Some v ->
          strconv.Atoi v = None -> history.Size env = 100).
Proof.
  intros env. unfold history.Size, os.Getenv.
  split; [reflexivity|]. split; [|split].
  - intros v n Hv Hn. rewrite Hv.
    destruct v as [|c v]; [discriminate Hn|].
    cbn [String.eqb negb]. rewrite Hn. reflexivity.
  - intros Hv. rewrite Hv. reflexivity.
  - intros v Hv Hn. rewrite Hv.
    destruct (negb (v =? "")%string); [rewrite Hn|]; reflexivity.
Qed.

Lemma Size_parsed_or_default_witness :
  history.Size (histFileSize "-5") = -5
  /\ history.Size (histFileSize "0") = 0
  /\ history.Size (fun _ => None) = 100
  /\ history.Size (histFileSize "1e3") = 100.
Proof.
  split; [|split; [|split]].
  - apply (proj1 (proj2 (Size_parsed_or_default (histFileSize "-5")))
             "-5"%string (-5)); reflexivity.
  - apply (proj1 (proj2 (Size_parsed_or_default (histFileSize "0")))
             "0"%string 0); reflexivity.
  - apply (proj1 (proj2 (proj2 (Size_parsed_or_default (fun _ => None)))));
      reflexivity.
  - apply (proj2 (proj2 (proj2 (Size_parsed_or_default (histFileSize "1e3"))))
             "1e3"%string); reflexivity.
Defined.

(** C7, as stated, fails: a command that comes back after another one is
    kept, so the result can hold a string twice. *)
Lemma Dedupe_keeps_distant_repeat :
  exists o : list string,
    history.Dedupe (Some ["a"; "b"; "a"]%string) = Ret (Some o) /\ ~ NoDup o.
Proof.
  exists ["a"; "b"; "a"]%string. split; [reflexivity|].
  intros H. inversion H as [|x t Hin _]; subst.
  apply Hin. right. left. reflexivity.
Qed.

(** C7, amended. [Dedupe] removes immediate repetitions: for every slice
    [s], no element of [Dedupe(s)] equals the one before it, [Dedupe(s)] is
    an order-preserving subsequence of [s] that keeps every string of [s],
    and [Dedupe(nil)] is nil.  The call never panics. *)
Theorem Dedupe_adjacent :
  history.Dedupe None = Ret None
  /\ forall l : list string,
       exists o : list string,
         history.Dedupe (Some l) = Ret (Some o)
         /\ AdjacentDistinct o
         /\ Subseq o l
         /\ (forall x : string, In x l -> In x o).
Proof.
  split; [reflexivity|]. intros l. exists (squeezed l).
  split; [apply Dedupe_squeezed|].
  destruct l as [|x t]; simpl squeezed.
  - split; [exact I|]. split; [constructor|]. intros y [].
  - split; [apply squeeze_AdjacentDistinct|].
    split; [constructor; apply squeeze_Subseq|].
    intros y [-> | H]; [left; reflexivity | apply squeeze_In, H].
Qed.

(** C8. [Filter] keeps, in order, exactly the elements that are not empty
    and in which [strings.Fields] finds a field, that is the lines that are
    not blank; so no line that [Read] returns is empty or all white space.
    Neither call panics. *)
Theorem Filter_drops_blank_lines :
  history.Filter None = Ret None
  /\ (forall l : list string,
        history.Filter (Some l) = Ret (Some (filter kept l))
        /\ Subseq (filter kept l) l)
  /\ (forall x : string,
        kept x = true <-> x <> EmptyString /\ elems (strings.Fields x) <> [])
  /\ (forall x : string, kept x = true <-> ~ Blank x)
  /\ (forall (R : Type) (HR : io.Reader R) (r : R),
        exists (lines : list string) (e : option error),
          history.Read (Some r) = Ret (Some lines, e)
          /\ Forall (fun x => x <> EmptyString /\ ~ Blank x) lines).
Proof.
  split; [reflexivity|].
  split; [intros l; split; [apply Filter_filter | apply filter_Subseq]|].
  split; [apply kept_fields|].
  split; [apply kept_not_Blank|].
  intros R HR r. destruct (Read_filtered r) as [cmds [e HR']].
  exists (filter kept cmds), e. split; [exact HR'|].
  apply Forall_forall. intros x Hx. apply filter_In in Hx.
  destruct Hx as [_ Hx]. split.
  - apply kept_fields in Hx. tauto.
  - apply kept_not_Blank, Hx.
Qed.

(** C6, as stated, fails for a writer that returns an error: [Write] stops
    at the failed call and the entries after it are not written. *)
Lemma Write_stops_at_failed_write :
  exists (w' : io.LimitedWriter) (e : error),
    history.Write (Some ["ab"; "cd"]%string) 5
      (Some {| io.written := EmptyString; io.room := 3 |})
    = Ret (Some w', Some e)
    /\ io.written w' <> joinLines (lastN 2 ["ab"; "cd"]%string).
Proof.
  exists {| io.written := ("ab" ++ newline)%string; io.room := 0 |},
         io.ErrShortWrite.
  split; [reflexivity | discriminate].
Qed.

(** C6, amended. For every slice [j] (of a length that is an [int]), every
    [maxSz > 0] and every non-nil writer [w], with [k = Filter(Dedupe(j))]
    and [es] the last [min(maxSz, len(k))] entries of [k]: [Write] passes to
    [w.Write], in order and up to the first call that fails, each entry of
    [es] but the last followed by a newline and then the last entry, and
    returns the error of the failed call or nil.  End to end these byte
    strings are the entries of [es] separated by newlines with no trailing
    newline, which is what a writer that does not fail (a [bytes.Buffer])
    receives.  When [j] is empty, [k] is empty or [w] is nil, nothing is
    written and nil is returned. *)
Theorem Write_bounded_tail :
  forall (W : Type) (HW : io.Writer W) (j : slice) (maxSz : Z) (w : W),
    0 < maxSz -> len j <= maxInt ->
    exists k : slice,
      (d <- history.Dedupe j ;; history.Filter d) = Ret k
      /\ let es := lastN (Z.to_nat (Z.min maxSz (len k))) (elems k) in
         history.Write j maxSz (Some w)
         = Ret (let (w', e) := io.writeEach w (chunks es) in (Some w', e))
         /\ String.concat EmptyString (chunks es) = joinLines es
         /\ (forall b : io.Buffer,
               history.Write j maxSz (Some b)
               = Ret (Some {| io.contents :=
                                (io.contents b ++ joinLines es)%string |},
                      None))
         /\ (len j = 0 \/ len k = 0 ->
             history.Write j maxSz (Some w) = Ret (Some w, None))
         /\ history.Write j maxSz (@None W) = Ret (None, None).
Proof.
  intros W HW j maxSz w Hpos Hlen.
  destruct j as [l|].
  - exists (Some (filter kept (squeezed l))).
    split; [apply pipeline_Some|]. cbv zeta. cbn [elems].
    rewrite len_Some in Hlen.
    split; [apply Write_positive; assumption|].
    split; [apply chunks_joinLines|].
    split.
    { intros b. rewrite Write_positive by assumption.
      rewrite Buffer_writeEach, chunks_joinLines. reflexivity. }
    split; [|apply Write_nil_writer].
    intros Hempty. rewrite Write_positive by assumption.
    assert (Hk : filter kept (squeezed l) = []).
    { destruct Hempty as [H | H].
      - apply len_zero_elems in H. simpl in H. subst l. reflexivity.
      - apply len_zero_elems in H. exact H. }
    rewrite Hk. reflexivity.
  - exists None. split; [reflexivity|]. cbv zeta.
    split; [reflexivity|]. split; [reflexivity|].
    split.
    { intros [s]. unfold history.Write. simpl. rewrite string_app_empty.
      reflexivity. }
    split; [reflexivity | reflexivity].
Qed.

Lemma Write_bounded_tail_witness :
  history.Write (Some ["ls"; "ls"; "  "; "cd /"; ""; "pwd"]%string) 2
    (Some {| io.contents := EmptyString |})
  = Ret (Some {| io.contents := ("cd /" ++ newline ++ "pwd")%string |}, None).
Proof.
  destruct (Write_bounded_tail io.Buffer io.Buffer_Writer
              (Some ["ls"; "ls"; "  "; "cd /"; ""; "pwd"]%string) 2
              {| io.contents := EmptyString |})
    as [k [Hk [_ [_ [Hb _]]]]].
  - reflexivity.
  - vm_compute. discriminate.
  - inversion Hk; subst k. apply Hb.
Defined.

(** C10, as stated, fails when the writer is nil: [Write] returns before it
    slices or indexes anything. *)
Lemma Write_nil_writer_no_panic :
  (d <- history.Dedupe (Some ["a"%string]) ;; history.Filter d)
  = Ret (Some ["a"%string])
  /\ history.Write (Some ["a"%string]) 0 (@None io.Buffer) = Ret (None, None)
  /\ history.Write (Some ["a"%string]) (-1) (@None io.Buffer) = Ret (None, None).
Proof. repeat split. Qed.

(** C10, amended. For every slice [j] with [k = Filter(Dedupe(j))] not
    empty, every non-nil writer and every [maxSz <= 0], [Write] panics: for
    [maxSz = 0] the truncation empties [k] and the last write indexes
    [k[-1]]; for [maxSz < 0] the slice bound [len(k)-maxSz], computed as an
    [int], is out of range (above [len(k)], or negative after overflow).
    For [maxSz > 0] the call does not panic. *)
Theorem Write_panics_unless_positive :
  forall (W : Type) (HW : io.Writer W) (j k : slice) (maxSz : Z) (w : W),
    isInt maxSz -> len j <= maxInt ->
    (d <- history.Dedupe j ;; history.Filter d) = Ret k -> len k <> 0 ->
    (maxSz = 0 ->
     history.Write j maxSz (Some w) = Panic (IndexOutOfRange (-1) 0))
    /\ (maxSz < 0 ->
        history.Write j maxSz (Some w)
        = Panic (SliceBoundsOutOfRange (wrap (len k - maxSz)) (len k))
        /\ ~ (0 <= wrap (len k - maxSz) <= len k))
    /\ (0 < maxSz -> exists r, history.Write j maxSz (Some w) = Ret r).
Proof.
  intros W HW j k maxSz w Hint Hlen Hk Hne.
  destruct j as [l|]; [|inversion Hk; subst k; contradiction Hne; reflexivity].
  rewrite pipeline_Some in Hk. inversion Hk; subst k. clear Hk.
  rewrite len_Some in Hlen.
  assert (Hk : filter kept (squeezed l) <> []).
  { intros E. apply Hne. rewrite E. reflexivity. }
  split; [intros ->; apply Write_zero; assumption|].
  split.
  - intros Hneg. pose proof (Write_negative l maxSz w Hk Hlen Hint Hneg) as HP.
    cbv zeta in HP. split; [exact HP|].
    apply bound_out_of_range; try assumption.
    pose proof (kept_length l).
    assert (0 < len (Some (filter kept (squeezed l)))).
    { pose proof (len_nonneg (Some (filter kept (squeezed l)))). lia. }
    rewrite len_Some in *. lia.
  - intros Hpos. rewrite Write_positive by assumption. eexists. reflexivity.
Qed.

Lemma Write_panics_unless_positive_witness :
  history.Write (Some ["ls"%string]) 0 (Some {| io.contents := EmptyString |})
  = Panic (IndexOutOfRange (-1) 0)
  /\ history.Write (Some ["ls"%string]) (-1)
       (Some {| io.contents := EmptyString |})
     = Panic (SliceBoundsOutOfRange 2 1).
Proof.
  assert (Hlen : len (Some ["ls"%string]) <= maxInt)
    by (vm_compute; discriminate).
  assert (Hne : len (Some ["ls"%string]) <> 0) by discriminate.
  split.
  - apply (proj1 (Write_panics_unless_positive io.Buffer io.Buffer_Writer
                    (Some ["ls"%string]) (Some ["ls"%string]) 0
                    {| io.contents := EmptyString |}
                    ltac:(unfold isInt, minInt, maxInt; lia) Hlen eq_refl Hne)).
    reflexivity.
  - apply (proj1 (proj2 (Write_panics_unless_positive io.Buffer io.Buffer_Writer
                           (Some ["ls"%string]) (Some ["ls"%string]) (-1)
                           {| io.contents := EmptyString |}
                           ltac:(unfold isInt, minInt, maxInt; lia)
                           Hlen eq_refl Hne))).
    reflexivity.
Defined.

End HistoryClaims.

(** ** Properties of the queue *)

Section QueueClaims.

Import queue.

(** [Test_NewQueueWriteBatchSizeSingle]: batch size 1, one write. *)
Example Test_NewQueueWriteBatchSizeSingle :
  output (run (writes 1) (mustNew 1024 1 600))
  = [{| items := [testStmt]; trigger := SizeTriggered |}].
Proof. reflexivity. Qed.

(** [Test_NewQueueWriteBatchSizeMulti]: batch size 5; five writes, then six
    more. *)
Example Test_NewQueueWriteBatchSizeMulti :
  let q1 := run (writes 5) (mustNew 1024 5 600) in
  let q2 := run (writes 6) q1 in
  map (fun e => List.length (items e)) (output q1) = [5%nat]
  /\ numTimeouts q1 = 0
  /\ map (fun e => List.length (items e)) (output q2) = [5%nat; 5%nat]
  /\ numTimeouts q2 = 0.
Proof. repeat split. Qed.

(** [Test_NewQueueWriteTimeoutMulti]: batch size 10, timeout of 10 ticks; a
    write, the timeout, a write, the timeout. *)
Example Test_NewQueueWriteTimeoutMulti :
  let q1 := run (writes 1 ++ repeat EvTick 10) (mustNew 1024 10 10) in
  let q2 := run (writes 1 ++ repeat EvTick 10) q1 in
  map (fun e => List.length (items e)) (output q1) = [1%nat]
  /\ numTimeouts q1 = 1
  /\ map (fun e => List.length (items e)) (output q2) = [1%nat; 1%nat]
  /\ numTimeouts q2 = 2.
Proof. repeat split. Qed.

(** [Test_NewQueueWriteTimeoutBatch]: batch size 2; a write and the timeout,
    then two writes. *)
Example Test_NewQueueWriteTimeoutBatch :
  let q1 := run (writes 1 ++ repeat EvTick 10) (mustNew 1024 2 10) in
  let q2 := run (writes 2) q1 in
  map (fun e => List.length (items e)) (output q1) = [1%nat]
  /\ numTimeouts q1 = 1
  /\ map (fun e => List.length (items e)) (output q2) = [1%nat; 2%nat]
  /\ numTimeouts q2 = 1.
Proof. repeat split. Qed.

(** C1. A queue constructed with batch size [B], after any events that
    include no [Close] and during which the timer never fires, once the
    Dispatcher has emptied the Input Buffer: if the number [N] of items
    accepted is a multiple of [B], exactly [N/B] batches were delivered,
    each of [B] items and sealed by its size, holding the accepted items in
    order, and [numTimeouts] is what it was. *)
Theorem size_triggered_batches :
  forall (c B T : Z) (q0 : Queue) (evs : list Event),
    New c B T = Live q0 ->
    forallb (fun ev => negb (isClose ev)) evs = true ->
    timeouts evs q0 = 0%nat ->
    inputBuffer (run evs q0) = [] ->
    Z.of_nat (List.length (accepted evs q0)) mod B = 0 ->
    Z.of_nat (List.length (output (run evs q0)))
    = Z.of_nat (List.length (accepted evs q0)) / B
    /\ Forall (fun e => Z.of_nat (List.length (items e)) = B
                        /\ trigger e = SizeTriggered) (output (run evs q0))
    /\ List.concat (map items (output (run evs q0))) = accepted evs q0
    /\ numTimeouts (run evs q0) = numTimeouts q0.
Proof.
  intros c B T q0 evs HN Hc Ht Hbuf Hmod.
  apply New_Live in HN. destruct HN as [_ [HB [_ ->]]].
  set (q0 := {| capacity := c; batchSize := B; batchTimeout := T;
                inputBuffer := []; batch := []; timer := None;
                numTimeouts := 0; output := []; closed := false |}) in *.
  assert (H0 : Batching B [] q0) by (constructor; try reflexivity; [constructor | simpl; lia]).
  pose proof (run_Batching B evs [] q0 H0 Hc Ht) as [Hs Ho Hi Hf Hr].
  cbn [app] in Hi. rewrite Hbuf, app_nil_r in Hi.
  pose proof (FullBatches_length B _ Hf) as HL.
  assert (HN : Z.of_nat (List.length (accepted evs q0))
               = B * Z.of_nat (List.length (output (run evs q0)))
                 + Z.of_nat (List.length (batch (run evs q0)))).
  { rewrite <- Hi at 1. rewrite length_app. lia. }
  assert (Hb0 : Z.of_nat (List.length (batch (run evs q0))) = 0).
  { rewrite <- Hmod.
    apply (Z.mod_unique _ _ (Z.of_nat (List.length (output (run evs q0)))));
      [left; lia | exact HN]. }
  split.
  { apply (Z.div_unique _ _ _ (Z.of_nat (List.length (batch (run evs q0)))));
      [left; lia | exact HN]. }
  split; [exact Hf|].
  split.
  { rewrite <- Hi. destruct (batch (run evs q0)); [|simpl in Hb0; lia].
    rewrite app_nil_r. reflexivity. }
  apply run_no_timeout, Ht.
Qed.

Lemma size_triggered_batches_witness :
  let evs := writes 3 ++ [EvTick; EvTick] ++ writes 7 in
  let q0 := mustNew 1024 5 600 in
  Z.of_nat (List.length (output (run evs q0)))
  = Z.of_nat (List.length (accepted evs q0)) / 5
  /\ Forall (fun e => Z.of_nat (List.length (items e)) = 5
                      /\ trigger e = SizeTriggered) (output (run evs q0))
  /\ List.concat (map items (output (run evs q0))) = accepted evs q0
  /\ numTimeouts (run evs q0) = numTimeouts q0.
Proof.
  apply (size_triggered_batches 1024 5 600 (mustNew 1024 5 600)
           (writes 3 ++ [EvTick; EvTick] ++ writes 7)); reflexivity.
Defined.

(** C2, as stated, fails for a queue of batch size 1: the one item fills the
    batch, which is sealed by its size; the timer is disarmed and
    [numTimeouts] stays 0. *)
Lemma single_write_batch_size_one :
  let q := run ([EvWrite testStmt; EvDispatch] ++ repeat EvTick 600)
             (mustNew 1024 1 600) in
  New 1024 1 600 = Live (mustNew 1024 1 600)
  /\ output q = [{| items := [testStmt]; trigger := SizeTriggered |}]
  /\ numTimeouts q = 0
  /\ numTimeouts q <> numTimeouts (mustNew 1024 1 600) + 1.
Proof. vm_compute. repeat split. discriminate. Qed.

(** C2, amended. For every open queue of batch size above 1 whose
    Dispatcher is Idle (empty batch, empty Input Buffer), a single write of
    a non-nil item followed by at least [batchTimeout] ticks with no
    further write yields exactly one more batch, of that one item, sealed
    by the timeout, and [numTimeouts] is one more than it was. *)
Theorem single_write_times_out :
  forall (q0 : Queue) (s : Statement) (n : nat),
    closed q0 = false -> 0 < capacity q0 -> 1 < batchSize q0 ->
    0 < batchTimeout q0 ->
    inputBuffer q0 = [] -> batch q0 = [] ->
    batchTimeout q0 <= Z.of_nat n ->
    fst (Write (Some s) q0) = Ok
    /\ output (run ([EvWrite (Some s); EvDispatch] ++ repeat EvTick n) q0)
       = output q0 ++ [{| items := [Some s]; trigger := TimeoutTriggered |}]
    /\ numTimeouts (run ([EvWrite (Some s); EvDispatch] ++ repeat EvTick n) q0)
       = numTimeouts q0 + 1.
Proof.
  intros q0 s n Hc Hcap HB HT Hbuf Hb Hn.
  assert (Hroom : (Z.of_nat (List.length (inputBuffer q0)) <? capacity q0) = true)
    by (rewrite Hbuf; apply Z.ltb_lt; simpl; lia).
  split; [unfold Write; rewrite Hc, Hroom; reflexivity|].
  cbn [app run step]. unfold Write. rewrite Hc, Hroom. cbn [snd].
  unfold dispatch. cbn [closed inputBuffer]. rewrite ?Hc, ?Hbuf. cbn [app].
  unfold arrive. cbn [batch batchSize]. rewrite ?Hb. cbn [app List.length].
  replace (Z.of_nat 1 =? batchSize q0) with false
    by (symmetry; apply Z.eqb_neq; lia).
  match goal with
  | |- context [run _ ?q1] =>
      destruct (ticks_accumulating n q1 (batchTimeout q0)
                  eq_refl ltac:(discriminate) eq_refl ltac:(lia)) as [Ho Hnt]
  end.
  rewrite Ho, Hnt. split; reflexivity.
Qed.

Lemma single_write_times_out_witness :
  output (run ([EvWrite testStmt; EvDispatch] ++ repeat EvTick 10)
            (mustNew 1024 10 10))
  = [{| items := [testStmt]; trigger := TimeoutTriggered |}]
  /\ numTimeouts (run ([EvWrite testStmt; EvDispatch] ++ repeat EvTick 10)
                    (mustNew 1024 10 10)) = 1.
Proof.
  apply (single_write_times_out (mustNew 1024 10 10)
           {| Sql := "SELECT * FROM foo" |} 10); reflexivity.
Defined.

(** C3. In every execution of a constructed queue, [numTimeouts] starts at
    0 and never decreases; every event either delivers no batch and leaves
    the counter as it is, or delivers one batch and adds 1 to the counter
    if a timeout sealed the batch and nothing otherwise (so nothing for a
    size-triggered batch); at any time the counter is the number of
    timeout-triggered batches delivered. *)
Theorem numTimeouts_counts_timeouts :
  forall (c b t : Z) (q0 : Queue),
    New c b t = Live q0 ->
    NumTimeouts q0 = 0
    /\ (forall evs evs' : list Event,
          NumTimeouts (run evs q0) <= NumTimeouts (run (evs ++ evs') q0))
    /\ (forall (evs : list Event) (ev : Event),
          let q := run evs q0 in
          (output (step ev q) = output q
           /\ NumTimeouts (step ev q) = NumTimeouts q)
          \/ (exists e : Emission,
                output (step ev q) = output q ++ [e]
                /\ NumTimeouts (step ev q) = NumTimeouts q + counted e))
    /\ (forall evs : list Event,
          NumTimeouts (run evs q0) = timeoutTriggered (output (run evs q0))).
Proof.
  intros c b t q0 HN. apply New_Live in HN. destruct HN as [_ [_ [_ ->]]].
  unfold NumTimeouts.
  split; [reflexivity|]. split; [|split].
  - intros evs evs'. rewrite run_app. apply run_monotone.
  - intros evs ev. cbv zeta.
    match goal with
    | |- context [step ev ?q] =>
        destruct (step_emits ev q) as [delta [Ho [Hl Hn]]]
    end.
    destruct delta as [|e [|e' delta]].
    + left. rewrite Ho, Hn, app_nil_r. split; [reflexivity|].
      unfold timeoutTriggered. simpl. lia.
    + right. exists e. split; [exact Ho|]. rewrite Hn.
      unfold timeoutTriggered, counted. simpl. destruct (trigger e); reflexivity.
    + simpl in Hl. lia.
  - intros evs.
    match goal with
    | |- context [run evs ?q] => pose proof (run_counts evs q) as H
    end.
    cbn [numTimeouts output] in H. unfold timeoutTriggered at 2 in H.
    simpl in H. lia.
Qed.

Lemma numTimeouts_counts_timeouts_witness :
  NumTimeouts (mustNew 1024 2 10) = 0
  /\ NumTimeouts (run (writes 1 ++ repeat EvTick 10 ++ writes 2)
                   (mustNew 1024 2 10))
     = timeoutTriggered (output (run (writes 1 ++ repeat EvTick 10 ++ writes 2)
                                   (mustNew 1024 2 10))).
Proof.
  destruct (numTimeouts_counts_timeouts 1024 2 10 (mustNew 1024 2 10) eq_refl)
    as [H0 [_ [_ Hcount]]].
  split; [exact H0 | apply Hcount].
Defined.

(** C4. Construction with a capacity, batch size or timeout that is not
    positive fails with [InvalidConfig] and makes no queue; with all three
    positive it returns a live queue: open, Idle, empty, configured as asked
    and accepting a write. *)
Theorem New_validates :
  forall c b t : Z,
    (c <= 0 \/ b <= 0 \/ t <= 0 -> New c b t = InvalidConfig)
    /\ (0 < c -> 0 < b -> 0 < t ->
        exists q : Queue,
          New c b t = Live q
          /\ closed q = false
          /\ capacity q = c /\ batchSize q = b /\ batchTimeout q = t
          /\ inputBuffer q = [] /\ batch q = [] /\ timer q = None
          /\ output q = [] /\ NumTimeouts q = 0
          /\ forall s : Statement, fst (Write (Some s) q) = Ok).
Proof.
  intros c b t. unfold New. split.
  - intros H.
    replace ((0 <? c) && (0 <? b) && (0 <? t)) with false; [reflexivity|].
    symmetry. apply andb_false_iff.
    destruct H as [H | [H | H]].
    + left. apply andb_false_iff. left. apply Z.ltb_ge, H.
    + left. apply andb_false_iff. right. apply Z.ltb_ge, H.
    + right. apply Z.ltb_ge, H.
  - intros Hc Hb Ht.
    replace ((0 <? c) && (0 <? b) && (0 <? t)) with true
      by (symmetry; rewrite !andb_true_iff; repeat split; apply Z.ltb_lt;
          assumption).
    eexists. split; [reflexivity|]. cbn.
    repeat split. intros s. unfold Write. cbn.
    replace (0 <? c) with true by (symmetry; apply Z.ltb_lt; assumption).
    reflexivity.
Qed.

Lemma New_validates_witness :
  New 0 1 1 = InvalidConfig
  /\ New 1 (-1) 1 = InvalidConfig
  /\ New 1 1 0 = InvalidConfig
  /\ exists q : Queue, New 1 1 100 = Live q /\ closed q = false.
Proof.
  split; [|split; [|split]].
  - apply (proj1 (New_validates 0 1 1)). left. lia.
  - apply (proj1 (New_validates 1 (-1) 1)). right. left. lia.
  - apply (proj1 (New_validates 1 1 0)). right. right. lia.
  - destruct (proj2 (New_validates 1 1 100)) as [q [Hq [Hc _]]]; try lia.
    exists q. split; assumption.
Defined.

(** C5. On a queue that has not been closed, [Write(nil)] returns success
    and leaves the queue, so the Input Buffer, as it was; and whatever
    happens to a constructed queue, no nil item is in the Input Buffer or
    in a delivered batch. *)
Theorem Write_nil_is_noop :
  forall (c b t : Z) (q0 : Queue) (evs : list Event),
    New c b t = Live q0 ->
    (closed (run evs q0) = false ->
     Write None (run evs q0) = (Ok, run evs q0)
     /\ inputBuffer (snd (Write None (run evs q0))) = inputBuffer (run evs q0))
    /\ Forall (fun item : Item => item <> None) (inputBuffer (run evs q0))
    /\ NoNilItem (output (run evs q0)).
Proof.
  intros c b t q0 evs HN. apply New_Live in HN. destruct HN as [_ [_ [_ ->]]].
  split; [intros _; split; reflexivity|].
  match goal with
  | |- context [run evs ?q] =>
      assert (H : NilFree (run evs q))
        by (apply run_NilFree; repeat split; constructor)
  end.
  destruct H as [Hi [_ Ho]]. split; assumption.
Qed.

Lemma Write_nil_is_noop_witness :
  Write None (run [EvWrite None; EvWrite testStmt; EvWrite None; EvDispatch]
                (mustNew 1 1 600))
  = (Ok, run [EvWrite None; EvWrite testStmt; EvWrite None; EvDispatch]
           (mustNew 1 1 600))
  /\ NoNilItem (output (run [EvWrite None; EvWrite testStmt; EvWrite None;
                             EvDispatch] (mustNew 1 1 600))).
Proof.
  destruct (Write_nil_is_noop 1 1 600 (mustNew 1 1 600)
              [EvWrite None; EvWrite testStmt; EvWrite None; EvDispatch]
              eq_refl) as [Hw [_ Ho]].
  split; [apply Hw; reflexivity | exact Ho].
Defined.

End QueueClaims.

(** ** Reading a history file line by line *)

Section ScanFacts.

Import lists text.

Implicit Types (es : list string) (x s : string) (sc : bufio.Scanner).

Lemma cutLine_app x s :
  hasByte 10 x = false ->
  bufio.cutLine (x ++ String "010" s) = (x, Some s).
Proof.
  induction x as [|c x IH]; intros H; simpl in *.
  - reflexivity.
  - apply orb_false_iff in H. destruct H as [Hc Hx].
    rewrite Hc, (IH Hx). reflexivity.
Qed.

Lemma cutLine_whole x : hasByte 10 x = false -> bufio.cutLine x = (x, None).
Proof.
  induction x as [|c x IH]; intros H; simpl in *.
  - reflexivity.
  - apply orb_false_iff in H. destruct H as [Hc Hx].
    rewrite Hc, (IH Hx). reflexivity.
Qed.

(** What is cut from a line followed by the end of the data or by a
    newline. *)
Lemma cutLine_fst x s :
  hasByte 10 x = false ->
  s = EmptyString \/ (exists s', s = String "010" s') ->
  fst (bufio.cutLine (x ++ s)) = x.
Proof.
  intros Hx [-> | [s' ->]].
  - rewrite string_app_empty, cutLine_whole by assumption. reflexivity.
  - rewrite cutLine_app by assumption. reflexivity.
Qed.

Lemma dropCR_keeps x : endsCR x = false -> bufio.dropCR x = x.
Proof.
  induction x as [|c x IH]; intros H; [reflexivity|].
  destruct x as [|c' x'].
  - simpl in *. rewrite H. reflexivity.
  - change (bufio.dropCR (String c (String c' x')))
      with (String c (bufio.dropCR (String c' x'))).
    rewrite IH; [reflexivity | exact H].
Qed.

Lemma string_length_app (a b : string) :
  String.length (a ++ b) = (String.length a + String.length b)%nat.
Proof. induction a as [|c a IH]; simpl; [|rewrite IH]; reflexivity. Qed.

(** A scan that finds a line of admissible length. *)
Lemma Scan_line sc (line : string) (rest : option string) :
  bufio.stopped sc = false -> bufio.data sc <> EmptyString ->
  bufio.cutLine (bufio.data sc) = (line, rest) ->
  strlen line < bufio.MaxScanTokenSize ->
  bufio.Scan sc
  = (true, {| bufio.data := match rest with
                            | Some d => d
                            | None => EmptyString
                            end;
              bufio.rdErr := bufio.rdErr sc; bufio.tok := bufio.dropCR line;
              bufio.err := None; bufio.stopped := false |}).
Proof.
  intros Hs Hd Hc Hl. unfold bufio.Scan. rewrite Hs.
  destruct (bufio.data sc) as [|c d] eqn:Ed; [contradiction Hd; reflexivity|].
  rewrite Hc.
  replace (bufio.MaxScanTokenSize <=? strlen line) with false
    by (symmetry; apply Z.leb_gt; exact Hl).
  reflexivity.
Qed.

(** The loop of [Read] over complete lines [es] followed by a last line [x]
    without newline: it collects the lines, the last one if it is not
    empty, each without its trailing carriage return, and ends with the
    error of the reader. *)
Lemma ReadLoop_lines es : forall x e t fuel o,
  Forall Line es -> Line x ->
  (String.length (unlines es ++ x) < fuel)%nat ->
  exists sc',
    history.ReadLoop fuel (scanning (unlines es ++ x) e t) (Some o)
    = (sc', Some (o ++ map bufio.dropCR es
                    ++ (if (x =? "")%string then [] else [bufio.dropCR x])))
    /\ bufio.Err sc' = e.
Proof.
  induction es as [|y es IH]; intros x e t fuel o Hes Hx Hf.
  - cbn [unlines String.append map app] in *.
    destruct fuel as [|fuel]; [lia|]. cbn [history.ReadLoop].
    destruct x as [|c x].
    + eexists. split; [cbn; rewrite app_nil_r; reflexivity | reflexivity].
    + destruct Hx as [Hx1 Hx2].
      rewrite (Scan_line _ (String c x) None); try reflexivity;
        try discriminate; try assumption;
        [|apply cutLine_whole; exact Hx1].
      destruct fuel as [|fuel]; [simpl in Hf; lia|].
      cbn. eexists. split; reflexivity.
  - inversion Hes as [|? ? Hy Hes']; subst.
    destruct fuel as [|fuel]; [lia|]. cbn [history.ReadLoop].
    cbn [unlines]. rewrite string_app_assoc. cbn [String.append].
    destruct Hy as [Hy1 Hy2].
    rewrite (Scan_line _ y (Some (unlines es ++ x)%string)); try reflexivity;
      try assumption.
    + cbn [bufio.Text bufio.tok].
      destruct (IH x e (bufio.dropCR y) fuel (elems (append (Some o) (bufio.dropCR y)))
                  Hes' Hx) as [sc' [HL He]].
      { cbn [unlines] in Hf. rewrite string_app_assoc in Hf.
        rewrite string_length_app in Hf. cbn [String.append String.length] in Hf.
        rewrite string_length_app. rewrite string_length_app in Hf. lia. }
      exists sc'. split; [|exact He].
      unfold scanning in HL. cbn [bufio.data bufio.rdErr scanning].
      unfold append in *. cbn [elems] in *. rewrite HL.
      rewrite <- !app_assoc. reflexivity.
    + cbn [bufio.data scanning]. destruct y; discriminate.
    + cbn [bufio.data scanning].
      change (String "010" (unlines es ++ x))
        with (String "010" (unlines es ++ x)%string).
      apply cutLine_app. exact Hy1.
Qed.

(** The loop of [Read] over complete lines [es] followed by a line [big] too
    long for the buffer: it collects [es] and ends with [ErrTooLong]. *)
Lemma ReadLoop_too_long es : forall big s e t fuel o,
  Forall Line es -> hasByte 10 big = false ->
  bufio.MaxScanTokenSize <= strlen big ->
  s = EmptyString \/ (exists s', s = String "010" s') ->
  (String.length (unlines es ++ big ++ s) < fuel)%nat ->
  exists sc',
    history.ReadLoop fuel (scanning (unlines es ++ big ++ s) e t) (Some o)
    = (sc', Some (o ++ map bufio.dropCR es))
    /\ bufio.Err sc' = Some bufio.ErrTooLong.
Proof.
  induction es as [|y es IH]; intros big s e t fuel o Hes Hb Hbig Hs Hf.
  - cbn [unlines String.append map] in *. rewrite app_nil_r.
    destruct fuel as [|fuel]; [lia|]. cbn [history.ReadLoop].
    unfold bufio.Scan. cbn [bufio.stopped bufio.data scanning].
    destruct (big ++ s)%string as [|c d] eqn:Ed.
    { destruct big; [|discriminate Ed].
      unfold bufio.MaxScanTokenSize, strlen in Hbig. simpl in Hbig. lia. }
    rewrite <- Ed.
    pose proof (cutLine_fst big s Hb Hs) as Hc.
    destruct (bufio.cutLine (big ++ s)) as [line rest]. cbn [fst] in Hc. subst line.
    replace (bufio.MaxScanTokenSize <=? strlen big) with true
      by (symmetry; apply Z.leb_le; exact Hbig).
    eexists. split; reflexivity.
  - inversion Hes as [|? ? Hy Hes']; subst.
    destruct fuel as [|fuel]; [lia|]. cbn [history.ReadLoop].
    cbn [unlines]. rewrite string_app_assoc. cbn [String.append].
    destruct Hy as [Hy1 Hy2].
    rewrite (Scan_line _ y (Some (unlines es ++ big ++ s)%string));
      try reflexivity; try assumption.
    + cbn [bufio.Text bufio.tok].
      destruct (IH big s e (bufio.dropCR y) fuel
                  (elems (append (Some o) (bufio.dropCR y)))
                  Hes' Hb Hbig Hs) as [sc' [HL He]].
      { cbn [unlines] in Hf. rewrite string_app_assoc in Hf.
        rewrite string_length_app in Hf. cbn [String.append String.length] in Hf.
        rewrite string_length_app. rewrite string_length_app in Hf. lia. }
      exists sc'. split; [|exact He].
      unfold scanning in HL. cbn [bufio.data bufio.rdErr scanning].
      unfold append in *. cbn [elems] in *. rewrite HL.
      rewrite <- !app_assoc. reflexivity.
    + cbn [bufio.data scanning]. destruct y; discriminate.
    + cbn [bufio.data scanning]. apply cutLine_app. exact Hy1.
Qed.

End ScanFacts.

(** ** More properties of package history *)

Section HistoryExtras.

Import lists aux text.

Implicit Types (l es k : list string) (x y s : string).

Lemma squeeze_fixed y l : AdjacentDistinct (y :: l) -> squeeze y l = l.
Proof.
  revert y. induction l as [|x t IH]; intros y H; [reflexivity|].
  destruct H as [Hne Ht]. simpl squeeze.
  replace (x =? y)%string with false
    by (symmetry; apply String.eqb_neq; congruence).
  rewrite IH by exact Ht. reflexivity.
Qed.

Lemma squeezed_fixed l : AdjacentDistinct l -> squeezed l = l.
Proof.
  destruct l as [|x t]; intros H; [reflexivity|].
  simpl. rewrite squeeze_fixed by exact H. reflexivity.
Qed.

Lemma squeezed_AdjacentDistinct l : AdjacentDistinct (squeezed l).
Proof.
  destruct l as [|x t]; [exact I | apply squeeze_AdjacentDistinct].
Qed.

Lemma Subseq_In {A : Type} (o s : list A) (a : A) :
  Subseq o s -> In a o -> In a s.
Proof.
  induction 1 as [|b o s _ IH|b o s _ IH]; intros H.
  - exact H.
  - destruct H as [-> | H]; [left; reflexivity | right; apply IH, H].
  - right. apply IH, H.
Qed.

Lemma filter_fixed (f : string -> bool) l :
  Forall (fun x => f x = true) l -> filter f l = l.
Proof.
  induction 1 as [|x t Hx _ IH]; [reflexivity|].
  simpl. rewrite Hx, IH. reflexivity.
Qed.

Lemma filter_all (f : string -> bool) l : Forall (fun x => f x = true) (filter f l).
Proof.
  apply Forall_forall. intros x Hx. apply filter_In in Hx. tauto.
Qed.

Lemma Forall_Subseq {A : Type} (P : A -> Prop) (o s : list A) :
  Subseq o s -> Forall P s -> Forall P o.
Proof.
  intros Hs Hp. apply Forall_forall. intros a Ha.
  rewrite Forall_forall in Hp. apply Hp. exact (Subseq_In _ _ _ Hs Ha).
Qed.

Lemma lastN_Subseq {A : Type} (n : nat) (l : list A) : Subseq (lastN n l) l.
Proof.
  unfold lastN. generalize (List.length l - n)%nat. intros m. revert l.
  induction m as [|m IH]; intros l.
  - induction l; constructor; assumption.
  - destruct l as [|a l]; [constructor|]. simpl. constructor. apply IH.
Qed.

Lemma joinLines_cons x l :
  l <> [] -> joinLines (x :: l) = (x ++ newline ++ joinLines l)%string.
Proof. destruct l; [intros H; contradiction H; reflexivity | reflexivity]. Qed.

Lemma joinLines_snoc (init : list string) (z : string) :
  joinLines (init ++ [z]) = (unlines init ++ z)%string.
Proof.
  induction init as [|x t IH]; [reflexivity|].
  simpl app. rewrite joinLines_cons by (destruct t; discriminate).
  rewrite IH. cbn [unlines]. rewrite string_app_assoc. reflexivity.
Qed.

Lemma cleaned_Some l : cleaned (Some l) = Ret (Some (filter kept (squeezed l))).
Proof.
  unfold cleaned. rewrite Dedupe_squeezed. cbn [bind]. apply Filter_filter.
Qed.

(** The runes of an ASCII string are its bytes. *)
Lemma rangeRunes_ascii (fuel : nat) : forall s,
  asciiOnly s = true -> (String.length s <= fuel)%nat ->
  map fst (utf8.rangeRunes fuel s) = map byte (list_ascii_of_string s).
Proof.
  induction fuel as [|fuel IH]; intros s Ha Hl.
  - destruct s; [reflexivity | simpl in Hl; lia].
  - destruct s as [|c s]; [reflexivity|].
    unfold asciiOnly in Ha. cbn [list_ascii_of_string forallb] in Ha.
    apply andb_true_iff in Ha. destruct Ha as [Hc Hs].
    cbn [utf8.rangeRunes utf8.DecodeRuneInString]. rewrite Hc.
    cbn [utf8.takeBytes utf8.dropBytes map fst list_ascii_of_string].
    rewrite IH; [reflexivity | exact Hs | simpl in Hl; lia].
Qed.

Lemma IsSpace_ascii (b : Z) : b < 128 -> unicode.IsSpace b = asciiSpace b.
Proof.
  intros Hb. unfold unicode.IsSpace, asciiSpace.
  replace (b <=? 255) with true by (symmetry; apply Z.leb_le; lia).
  replace (b =? 133) with false by (symmetry; apply Z.eqb_neq; lia).
  replace (b =? 160) with false by (symmetry; apply Z.eqb_neq; lia).
  rewrite !orb_false_r. reflexivity.
Qed.

Lemma existsb_negb {A : Type} (f : A -> bool) (l : list A) :
  existsb (fun a => negb (f a)) l = negb (forallb f l).
Proof.
  induction l as [|a t IH]; [reflexivity|].
  simpl. rewrite IH, negb_andb. reflexivity.
Qed.

Lemma Atoi_isInt (v : string) (n : Z) : strconv.Atoi v = Some n -> isInt n.
Proof.
  unfold strconv.Atoi. destruct v as [|c v]; [discriminate|].
  destruct (if (byte c =? 45) || (byte c =? 43) then v else String c v);
    [discriminate|].
  destruct (strconv.digits _ 0) as [m|]; [|discriminate].
  destruct ((minInt <=? _) && (_ <=? maxInt)) eqn:E; [|discriminate].
  intros H. inversion H; subst. clear H.
  apply andb_true_iff in E. destruct E as [E1 E2].
  apply Z.leb_le in E1, E2. split; assumption.
Qed.

End HistoryExtras.

(** ** Further properties of Dedupe, Filter, Read, Write and Size *)

Section HistoryMore.

Import lists aux text.

Implicit Types (l es k : list string) (x y s : string).

(** X1. [Dedupe] returns its argument unchanged exactly when no element of
    the argument repeats the one before it; in particular a second
    [Dedupe] changes nothing. *)
Theorem Dedupe_fixed_point :
  forall l : list string,
    (history.Dedupe (Some l) = Ret (Some l) <-> AdjacentDistinct l)
    /\ (d <- history.Dedupe (Some l) ;; history.Dedupe d)
       = history.Dedupe (Some l).
Proof.
  intros l. rewrite Dedupe_squeezed. split.
  - split.
    + intros H. inversion H as [E]. rewrite <- E at 1. rewrite E.
      rewrite <- E. apply squeezed_AdjacentDistinct.
    + intros H. rewrite squeezed_fixed by exact H. reflexivity.
  - cbn [bind]. rewrite Dedupe_squeezed.
    rewrite (squeezed_fixed (squeezed l)) by apply squeezed_AdjacentDistinct.
    reflexivity.
Qed.

(** X2. [Filter] works element by element: filtering a concatenation gives
    the concatenation of the filtered parts, and filtering a second time
    changes nothing. *)
Theorem Filter_piecewise :
  forall a b : list string,
    history.Filter (Some (a ++ b))
    = (fa <- history.Filter (Some a) ;;
       fb <- history.Filter (Some b) ;;
       Ret (Some (elems fa ++ elems fb)))
    /\ (o <- history.Filter (Some a) ;; history.Filter o)
       = history.Filter (Some a).
Proof.
  intros a b. rewrite !Filter_filter. cbn [bind elems]. split.
  - rewrite filter_app. reflexivity.
  - rewrite Filter_filter.
    rewrite (filter_fixed kept (filter kept a))
      by apply filter_all.
    reflexivity.
Qed.

(** X3. [Write] filters after it dedupes, so a blank line between two
    copies of a command hides the repetition from [Dedupe]: the command is
    then written twice in a row. *)
Theorem blank_line_defeats_Dedupe :
  forall (x b : string) (maxSz : Z) (buf : io.Buffer),
    kept x = true -> kept b = false -> 2 <= maxSz ->
    cleaned (Some [x; b; x]) = Ret (Some [x; x])
    /\ history.Write (Some [x; b; x]) maxSz (Some buf)
       = Ret (Some {| io.contents :=
                        (io.contents buf ++ x ++ newline ++ x)%string |},
              None).
Proof.
  intros x b maxSz buf Hx Hb Hm.
  assert (Hne : (b =? x)%string = false).
  { apply String.eqb_neq. intros ->. congruence. }
  assert (Hne' : (x =? b)%string = false)
    by (rewrite String.eqb_sym; exact Hne).
  assert (Hk : filter kept (squeezed [x; b; x]) = [x; x]).
  { cbn [squeezed squeeze]. rewrite Hne, Hne'. cbn [filter].
    rewrite Hx, Hb. reflexivity. }
  split; [rewrite cleaned_Some, Hk; reflexivity|].
  rewrite Write_positive by (simpl; unfold maxInt; lia).
  cbv zeta. rewrite Hk, Buffer_writeEach, chunks_joinLines.
  rewrite len_Some. cbn [List.length]. rewrite Z.min_r by lia.
  reflexivity.
Qed.

Lemma blank_line_defeats_Dedupe_witness :
  history.Write (Some ["ls"; ""; "ls"]%string) 100
    (Some {| io.contents := EmptyString |})
  = Ret (Some {| io.contents := ("ls" ++ newline ++ "ls")%string |}, None).
Proof.
  apply (proj2 (blank_line_defeats_Dedupe "ls" "" 100
                  {| io.contents := EmptyString |} eq_refl eq_refl
                  ltac:(lia))).
Defined.

(** X4. What [Write] makes of a history, [Filter(Dedupe(j))], is not always
    a fixed point of that cleaning, but its second application is: cleaned
    twice, a history has no blank entry and no immediate repetition, and
    cleaning it again changes nothing. *)
Theorem cleaned_twice_is_stable :
  forall l : list string,
    exists k2 : list string,
      (k1 <- cleaned (Some l) ;; cleaned k1) = Ret (Some k2)
      /\ cleaned (Some k2) = Ret (Some k2)
      /\ AdjacentDistinct k2
      /\ Forall (fun x => ~ Blank x) k2.
Proof.
  intros l. exists (squeezed (filter kept (squeezed l))).
  assert (Hall : Forall (fun x => kept x = true)
                   (squeezed (filter kept (squeezed l)))).
  { apply (Forall_Subseq _ _ _ (squeezed_Subseq _)). apply filter_all. }
  split; [|split; [|split]].
  - rewrite cleaned_Some. cbn [bind]. rewrite cleaned_Some.
    rewrite filter_fixed by exact Hall. reflexivity.
  - rewrite cleaned_Some.
    rewrite (squeezed_fixed (squeezed _)) by apply squeezed_AdjacentDistinct.
    rewrite filter_fixed by exact Hall. reflexivity.
  - apply squeezed_AdjacentDistinct.
  - apply Forall_forall. intros x Hx. rewrite Forall_forall in Hall.
    apply kept_not_Blank, Hall, Hx.
Qed.

(** X5. Of lines made of ASCII bytes, [Filter] drops exactly those whose
    bytes are all tabs, newlines, vertical tabs, form feeds, carriage
    returns or spaces (the empty line among them), and keeps every line
    with another byte in it. *)
Theorem Filter_ascii_lines :
  forall l : list string,
    Forall (fun x => asciiOnly x = true) l ->
    history.Filter (Some l)
    = Ret (Some (filter (fun x => existsb (fun c => negb (asciiSpace (byte c)))
                                    (list_ascii_of_string x)) l)).
Proof.
  intros l Hl. rewrite Filter_filter. do 2 f_equal.
  apply filter_ext_in. intros x Hx.
  rewrite Forall_forall in Hl. specialize (Hl x Hx).
  assert (HB : Blank x
               <-> forallb (fun c => asciiSpace (byte c)) (list_ascii_of_string x)
                   = true).
  { unfold Blank.
    rewrite <- (Forall_map fst (fun r => unicode.IsSpace r = true)).
    unfold utf8.runes. rewrite rangeRunes_ascii by (assumption || lia).
    rewrite Forall_map, forallb_forall, Forall_forall.
    unfold asciiOnly in Hl. rewrite forallb_forall in Hl.
    split; intros H c Hc; specialize (H c Hc); specialize (Hl c Hc);
      apply Z.ltb_lt in Hl; rewrite IsSpace_ascii in * by exact Hl; exact H. }
  pose proof (kept_not_Blank x) as HK.
  rewrite existsb_negb.
  destruct (forallb _ _) eqn:EF; cbn [negb].
  - destruct (kept x) eqn:EK; [|reflexivity].
    exfalso. apply (proj1 HK eq_refl). apply HB. reflexivity.
  - apply HK. intros HBx. apply HB in HBx. discriminate HBx.
Qed.

Lemma Filter_ascii_lines_witness :
  history.Filter (Some ["ls -l"; "   "; ""; " cd"]%string)
  = Ret (Some ["ls -l"; " cd"]%string).
Proof.
  apply (Filter_ascii_lines ["ls -l"; "   "; ""; " cd"]%string).
  repeat constructor.
Defined.

Lemma Size_of_parsed (env : os.Env) (v : string) (n : Z) :
  env "RQLITE_HISTFILESIZE"%string = Some v -> strconv.Atoi v = Some n ->
  history.Size env = n.
Proof.
  intros Hv Hn. unfold history.Size, os.Getenv. rewrite Hv.
  destruct v as [|c v]; [discriminate Hn|].
  cbn [String.eqb negb]. rewrite Hn. reflexivity.
Qed.

Lemma Size_of_unparsed (env : os.Env) :
  env "RQLITE_HISTFILESIZE"%string = None
  \/ (exists v, env "RQLITE_HISTFILESIZE"%string = Some v
                /\ strconv.Atoi v = None) ->
  history.Size env = 100.
Proof.
  unfold history.Size, os.Getenv. intros [Hv | [v [Hv Hn]]]; rewrite Hv.
  - reflexivity.
  - destruct (negb (v =? "")%string); [rewrite Hn|]; reflexivity.
Qed.

(** X6. [Read] returns the lines of its input that are not blank, in
    order, each without the carriage return it may end with, whether or not
    the last line ends with a newline; and it returns them together with
    the error that ended the reader, if any (nil at the end of the input).
    This holds when no line reaches the 64 KiB of the scanner's buffer. *)
Theorem Read_returns_lines :
  forall (R : Type) (HR : io.Reader R) (r : R) (es : list string) (x : string)
         (e : option error),
    io.ReadAll r = ((unlines es ++ x)%string, e) ->
    Forall Line es -> Line x ->
    history.Read (Some r)
    = Ret (Some (filter kept
                   (map bufio.dropCR es
                    ++ (if (x =? "")%string then [] else [bufio.dropCR x]))),
           e).
Proof.
  intros R HR r es x e Hr Hes Hx.
  unfold history.Read, bufio.NewScanner. rewrite Hr.
  cbn [bufio.data].
  destruct (ReadLoop_lines es x e EmptyString
              (S (String.length (unlines es ++ x))) [] Hes Hx ltac:(lia))
    as [sc' [HL He]].
  unfold scanning in HL. rewrite HL. cbn [app].
  rewrite Filter_filter. cbn [bind]. rewrite He. reflexivity.
Qed.

Lemma Read_returns_lines_witness :
  history.Read
    (Some (unlines ["ls"; String "013" ""; "cd /" ++ String "013" ""; "  "]
           ++ "pwd")%string)
  = Ret (Some ["ls"; "cd /"; "pwd"]%string, None).
Proof.
  apply (Read_returns_lines string io.string_Reader
           (unlines ["ls"; String "013" ""; "cd /" ++ String "013" ""; "  "]
            ++ "pwd")%string
           ["ls"; String "013" ""; "cd /" ++ String "013" ""; "  "]%string
           "pwd"%string None eq_refl).
  - repeat constructor.
  - repeat constructor.
Defined.

(** X7. When a line of the input has 64 KiB or more before its newline (or
    more than 64 KiB, for a last line without newline), [Read] stops there:
    it returns the non-blank lines before that line and the error
    [bufio.ErrTooLong], and nothing of what follows; the reader's own error
    is not reported. *)
Theorem Read_stops_at_long_line :
  forall (R : Type) (HR : io.Reader R) (r : R) (es : list string)
         (big s : string) (e : option error),
    io.ReadAll r = ((unlines es ++ big ++ s)%string, e) ->
    Forall Line es ->
    hasByte 10 big = false -> bufio.MaxScanTokenSize <= strlen big ->
    (s = EmptyString /\ bufio.MaxScanTokenSize < strlen big)
    \/ (exists s', s = String "010" s') ->
    history.Read (Some r)
    = Ret (Some (filter kept (map bufio.dropCR es)), Some bufio.ErrTooLong).
Proof.
  intros R HR r es big s e Hr Hes Hb Hbig Hs'.
  assert (Hs : s = EmptyString \/ (exists s', s = String "010" s'))
    by (destruct Hs' as [[H _] | H]; [left | right]; exact H).
  unfold history.Read, bufio.NewScanner. rewrite Hr.
  cbn [bufio.data].
  destruct (ReadLoop_too_long es big s e EmptyString
              (S (String.length (unlines es ++ big ++ s))) []
              Hes Hb Hbig Hs ltac:(lia)) as [sc' [HL He]].
  unfold scanning in HL. rewrite HL. cbn [app].
  rewrite Filter_filter. cbn [bind]. rewrite He. reflexivity.
Qed.

Lemma Read_stops_at_long_line_witness :
  history.Read
    (Some (unlines ["ls"%string] ++ longLine 65536 ++ String "010" "pwd")%string)
  = Ret (Some (filter kept (map bufio.dropCR ["ls"%string])),
         Some bufio.ErrTooLong).
Proof.
  apply (Read_stops_at_long_line string io.string_Reader
           (unlines ["ls"%string] ++ longLine 65536 ++ String "010" "pwd")%string
           ["ls"%string] (longLine 65536) (String "010" "pwd") None eq_refl).
  - repeat constructor.
  - vm_compute. reflexivity.
  - vm_compute. discriminate.
  - right. exists "pwd"%string. reflexivity.
Defined.

(** X8. What [Write] writes, [Read] reads back: for commands without a
    newline, not ending with a carriage return and shorter than 64 KiB, and
    [maxSz > 0], reading the bytes that [Write(j, maxSz, w)] wrote to an
    empty buffer returns, with a nil error, exactly the last
    [min(maxSz, len(k))] entries of [k = Filter(Dedupe(j))]. *)
Theorem Write_then_Read :
  forall (j : slice) (maxSz : Z),
    0 < maxSz -> len j <= maxInt -> Forall Storable (elems j) ->
    exists (k : slice) (b : io.Buffer),
      cleaned j = Ret k
      /\ history.Write j maxSz (Some {| io.contents := EmptyString |})
         = Ret (Some b, None)
      /\ history.Read (Some (io.contents b))
         = Ret (Some (lastN (Z.to_nat (Z.min maxSz (len k))) (elems k)), None).
Proof.
  intros j maxSz Hpos Hlen Hst.
  destruct j as [l|].
  2:{ exists None, {| io.contents := EmptyString |}.
      split; [reflexivity|]. split; reflexivity. }
  cbn [elems] in Hst. rewrite len_Some in Hlen.
  set (k := filter kept (squeezed l)).
  set (es := lastN (Z.to_nat (Z.min maxSz (len (Some k)))) k).
  exists (Some k), {| io.contents := joinLines es |}.
  split; [apply cleaned_Some|]. split.
  { rewrite Write_positive by assumption. cbv zeta. fold k. fold es.
    rewrite Buffer_writeEach, chunks_joinLines. reflexivity. }
  cbn [io.contents elems]. fold es.
  assert (Hsub : Subseq es l).
  { pose proof (lastN_Subseq (Z.to_nat (Z.min maxSz (len (Some k)))) k) as H1.
    pose proof (filter_Subseq kept (squeezed l)) as H2.
    pose proof (squeezed_Subseq l) as H3. fold k in H2. fold es in H1.
    clear - H1 H2 H3. revert H1 H2 H3. generalize (squeezed l). intros sl.
    intros H1 H2 H3.
    assert (T : forall (a b c : list string), Subseq a b -> Subseq b c -> Subseq a c).
    { intros a b c Hab Hbc. revert a Hab.
      induction Hbc as [|z b c _ IH|z b c _ IH]; intros a Hab.
      - exact Hab.
      - inversion Hab; subst; constructor; apply IH; assumption.
      - constructor. apply IH, Hab. }
    exact (T _ _ _ (T _ _ _ H1 H2) H3). }
  assert (Hes : Forall Storable es) by exact (Forall_Subseq _ _ _ Hsub Hst).
  assert (Hkept : Forall (fun x => kept x = true) es).
  { apply (Forall_Subseq _ _ _ (lastN_Subseq _ k)). apply filter_all. }
  clear Hsub. clearbody es.
  destruct es as [|e0 et]; [reflexivity|].
  destruct (@exists_last _ (e0 :: et) ltac:(discriminate)) as [init [z E]].
  rewrite E in *. clear E e0 et.
  apply Forall_app in Hes. destruct Hes as [Hinit Hz].
  inversion Hz as [|? ? [Hzl Hzc] _]; subst.
  rewrite joinLines_snoc.
  unfold history.Read, bufio.NewScanner.
  change (io.ReadAll (unlines init ++ z)%string)
    with ((unlines init ++ z)%string, @None error).
  cbn [bufio.data].
  destruct (ReadLoop_lines init z None EmptyString
              (S (String.length (unlines init ++ z))) []
              (Forall_impl _ (fun a (H : Storable a) => proj1 H) Hinit)
              Hzl ltac:(lia)) as [sc' [HL He]].
  unfold scanning in HL. rewrite HL. cbn [app].
  rewrite Filter_filter. cbn [bind]. rewrite He.
  assert (Hz0 : (z =? "")%string = false).
  { apply String.eqb_neq. intros ->.
    apply Forall_app in Hkept. destruct Hkept as [_ Hk].
    inversion Hk as [|? ? Hk0 _]. discriminate Hk0. }
  rewrite Hz0, (dropCR_keeps z Hzc).
  assert (Hmap : map bufio.dropCR init = init).
  { clear - Hinit. induction Hinit as [|a t [_ Ha] _ IH]; [reflexivity|].
    simpl. rewrite (dropCR_keeps a Ha), IH. reflexivity. }
  rewrite Hmap, filter_fixed by exact Hkept. reflexivity.
Qed.

Lemma Write_then_Read_witness :
  exists (k : slice) (b : io.Buffer),
    cleaned (Some ["ls"; "ls"; "  "; "cd /"; ""; "pwd"]%string) = Ret k
    /\ history.Write (Some ["ls"; "ls"; "  "; "cd /"; ""; "pwd"]%string) 2
         (Some {| io.contents := EmptyString |})
       = Ret (Some b, None)
    /\ history.Read (Some (io.contents b))
       = Ret (Some (lastN (Z.to_nat (Z.min 2 (len k))) (elems k)), None).
Proof.
  apply (Write_then_Read (Some ["ls"; "ls"; "  "; "cd /"; ""; "pwd"]%string) 2).
  - reflexivity.
  - vm_compute. discriminate.
  - repeat constructor.
Defined.

(** X9. [Write] with the size that [Size] returns: when RQLITE_HISTFILESIZE
    parses to zero or to a negative integer, [Write(j, Size(), w)] panics
    for every history that is not empty after cleaning and every non-nil
    writer; when the variable parses to a positive integer, is unset or
    does not parse, the call does not panic. *)
Theorem Write_with_Size :
  forall (W : Type) (HW : io.Writer W) (env : os.Env) (j k : slice) (w : W),
    len j <= maxInt -> cleaned j = Ret k -> len k <> 0 ->
    (forall (v : string) (n : Z),
       env "RQLITE_HISTFILESIZE"%string = Some v ->
       strconv.Atoi v = Some n ->
       (n <= 0 ->
        exists p, history.Write j (history.Size env) (Some w) = Panic p)
       /\ (0 < n ->
           exists r, history.Write j (history.Size env) (Some w) = Ret r))
    /\ (env "RQLITE_HISTFILESIZE"%string = None
        \/ (exists v, env "RQLITE_HISTFILESIZE"%string = Some v
                      /\ strconv.Atoi v = None) ->
        exists r, history.Write j (history.Size env) (Some w) = Ret r).
Proof.
  intros W HW env j k w Hlen Hk Hne.
  destruct j as [l|]; [|inversion Hk; subst k; contradiction Hne; reflexivity].
  rewrite cleaned_Some in Hk. inversion Hk; subst k. clear Hk.
  rewrite len_Some in Hlen.
  assert (Hk : filter kept (squeezed l) <> []).
  { intros E. apply Hne. rewrite E. reflexivity. }
  split.
  - intros v n Hv Hn. rewrite (Size_of_parsed env v n Hv Hn).
    pose proof (Atoi_isInt v n Hn) as Hint. split.
    + intros Hle. destruct (Z.eq_dec n 0) as [-> | Hnz].
      * eexists. apply Write_zero; assumption.
      * eexists. apply Write_negative; try assumption. lia.
    + intros Hpos. rewrite Write_positive by assumption. eexists. reflexivity.
  - intros Hun. rewrite (Size_of_unparsed env Hun).
    rewrite Write_positive by (assumption || lia). eexists. reflexivity.
Qed.

Lemma Write_with_Size_witness :
  exists p : panic,
    history.Write (Some ["ls"%string])
      (history.Size (setenv "RQLITE_HISTFILESIZE" "0"))
      (Some {| io.contents := EmptyString |})
    = Panic p.
Proof.
  assert (Hlen : len (Some ["ls"%string]) <= maxInt)
    by (vm_compute; discriminate).
  assert (Hne : len (Some ["ls"%string]) <> 0) by discriminate.
  destruct (Write_with_Size io.Buffer io.Buffer_Writer
              (setenv "RQLITE_HISTFILESIZE" "0")
              (Some ["ls"%string]) (Some ["ls"%string])
              {| io.contents := EmptyString |} Hlen eq_refl Hne) as [H _].
  apply (proj1 (H "0"%string 0 eq_refl eq_refl)). lia.
Defined.

(** X10. When nothing is left of the history after cleaning (it is nil,
    empty, or made of blank lines only), [Write] writes nothing and returns
    nil whatever [maxSz] is, zero and negative values included, and whether
    or not the writer is nil. *)
Theorem Write_nothing_left :
  forall (W : Type) (HW : io.Writer W) (j k : slice) (maxSz : Z)
         (w : option W),
    cleaned j = Ret k -> len k = 0 ->
    history.Write j maxSz w = Ret (w, None).
Proof.
  intros W HW j k maxSz w Hk H0. unfold history.Write.
  destruct (len j =? 0); [reflexivity|].
  destruct w as [w0|]; [|reflexivity].
  unfold cleaned in Hk. destruct (history.Dedupe j) as [d|p]; [|discriminate Hk].
  cbn [bind] in *. rewrite Hk. cbn [bind].
  rewrite H0. reflexivity.
Qed.

Lemma Write_nothing_left_witness :
  history.Write (Some [""; "   "; String "009" ""]%string) (-3)
    (Some {| io.contents := "ls"%string |})
  = Ret (Some {| io.contents := "ls"%string |}, None).
Proof.
  apply (Write_nothing_left io.Buffer io.Buffer_Writer
           (Some [""; "   "; String "009" ""]%string) (Some []) (-3));
    reflexivity.
Defined.

End HistoryMore.
